(** * NZ_crawler: the crawl / extract / match pipeline of [NZ_crawler.py]

    A shallow embedding of [src/NZ_crawler.py].

    - Text is [list ascii]: a Python [str] restricted to the code points
      0..255, with the character classes ([\s], [\d], case folding) of
      Python's [re] module on that range.
    - [Module Re] is the backtracking matcher of Python's [re] for the
      constructs that occur in the patterns of the program ([re.search],
      [re.finditer], priorities of greedy and lazy repeats, lookahead, [$]).
    - [Module Crawler] is the program: [PATTERNS], [extract_text_from_pdf],
      the row loop, the page loop, the year loop and the export of [main],
      over a state that carries [all_propositions] and the trace of effects.
      The network and the PDF library are an explicit [World]. *)

From Stdlib Require Import Ascii String DecimalString.
From Stdlib Require Import List Arith Lia Bool.
Import ListNotations.
Open Scope list_scope.

(** ** Text *)

Definition text := list ascii.

Definition str (s : string) : text := list_ascii_of_string s.

Definition nl : ascii := ascii_of_nat 10.

Definition code (c : ascii) : nat := nat_of_ascii c.

(** [\s] and [str.isspace] on the code points below 256. *)
Definition isspace (c : ascii) : bool :=
  let n := code c in
  ((9 <=? n) && (n <=? 13)) || ((28 <=? n) && (n <=? 32))
  || (n =? 133) || (n =? 160).

(** [\d] on the code points below 256. *)
Definition isdigit (c : ascii) : bool :=
  let n := code c in (48 <=? n) && (n <=? 57).

(** Lower-casing of one code point below 256, as [re.IGNORECASE] uses it. *)
Definition tolower (c : ascii) : ascii :=
  let n := code c in
  if ((65 <=? n) && (n <=? 90))
     || ((192 <=? n) && (n <=? 222) && negb (n =? 215))
  then ascii_of_nat (n + 32) else c.

Definition ci_char (a b : ascii) : bool := Ascii.eqb (tolower a) (tolower b).

(** [str.strip()] with no argument. *)
Fixpoint lstrip (s : text) : text :=
  match s with
  | c :: s' => if isspace c then lstrip s' else s
  | [] => []
  end.

Definition rstrip (s : text) : text := rev (lstrip (rev s)).

Definition strip (s : text) : text := rstrip (lstrip s).

(** [s.replace(old, new)] for a one-character [old], the only use the
    program makes of it. *)
Fixpoint replace (old : ascii) (new : text) (s : text) : text :=
  match s with
  | [] => []
  | c :: s' => (if Ascii.eqb c old then new else [c]) ++ replace old new s'
  end.

(** All 256 characters, for properties decided by enumeration. *)
Definition all_ascii : list ascii := map ascii_of_nat (seq 0 256).

(** ** Regular expressions, the part of Python's [re] the program uses *)

Module Re.

Inductive item : Type :=
| IChar (c : ascii)        (* a character of a set *)
| ISpace                   (* \s *)
| IDigit.                  (* \d *)

Inductive re : Type :=
| Eps
| Lit (c : ascii)                                  (* one literal character *)
| Any                                              (* .  (no DOTALL) *)
| In (neg : bool) (items : list item)              (* [...] and [^...] *)
| Cat (a b : re)
| Alt (a b : re)
| Rep (lo : nat) (hi : option nat) (greedy : bool) (a : re)
| Grp (capture : bool) (a : re)                    (* (...) and (?:...) *)
| Look (a : re)                                    (* (?=...) *)
| Eos.                                             (* $  (no MULTILINE) *)

(** A compiled pattern: the [(?i)] flag and the body. *)
Record pattern : Type := Pattern { ignorecase : bool; body : re }.

(** A run of literal characters. *)
Fixpoint lits (s : text) : re :=
  match s with
  | [] => Eps
  | c :: s' => Cat (Lit c) (lits s')
  end.

Definition cats (l : list re) : re := fold_right Cat Eps l.

Definition char_eq (ic : bool) (p c : ascii) : bool :=
  if ic then ci_char p c else Ascii.eqb p c.

Definition item_match (ic : bool) (i : item) (c : ascii) : bool :=
  match i with
  | IChar p => char_eq ic p c
  | ISpace => isspace c
  | IDigit => isdigit c
  end.

Definition in_set (ic neg : bool) (items : list item) (c : ascii) : bool :=
  xorb neg (existsb (fun i => item_match ic i c) items).

(** Matchers work on the text that is left and call their continuation
    with what remains after them; the patterns of the program have no
    construct that looks behind the current position. *)
Definition cont := text -> option text.
Definition matcher := text -> cont -> option text.

Definition one (p : ascii -> bool) : matcher :=
  fun s k => match s with
             | c :: s' => if p c then k s' else None
             | [] => None
             end.

Section Repeat.
Variable m : matcher.

(** [hi] more iterations are allowed, [lo] more are required. A greedy
    repeat tries one more iteration before it tries to stop, a lazy one
    (the [?] suffix) tries to stop first. *)
Fixpoint rep (greedy : bool) (lo hi : nat) (s : text) (k : cont) : option text :=
  match hi with
  | O => match lo with O => k s | S _ => None end
  | S hi' =>
      match lo with
      | S lo' => m s (fun s' => rep greedy lo' hi' s' k)
      | O =>
          if greedy then
            match m s (fun s' => rep greedy 0 hi' s' k) with
            | Some x => Some x
            | None => k s
            end
          else
            match k s with
            | Some x => Some x
            | None => m s (fun s' => rep greedy 0 hi' s' k)
            end
      end
  end.
End Repeat.

(** Every repeated body in the program's patterns consumes at least one
    character, so an unbounded repeat runs at most [length s] times. *)
Fixpoint mtch (ic : bool) (r : re) : matcher :=
  match r with
  | Eps => fun s k => k s
  | Lit c => one (char_eq ic c)
  | Any => one (fun c => negb (Ascii.eqb c nl))
  | In neg items => one (in_set ic neg items)
  | Cat a b => fun s k => mtch ic a s (fun s' => mtch ic b s' k)
  | Alt a b => fun s k =>
      match mtch ic a s k with
      | Some x => Some x
      | None => mtch ic b s k
      end
  | Rep lo hi greedy a => fun s k =>
      rep (mtch ic a) greedy lo
          (match hi with Some h => h | None => length s end) s k
  | Grp _ a => mtch ic a
  | Look a => fun s k =>
      match mtch ic a s (fun _ => Some []) with
      | Some _ => k s
      | None => None
      end
  | Eos => fun s k =>
      match s with
      | [] => k s
      | [c] => if Ascii.eqb c nl then k s else None
      | _ => None
      end
  end.

(** The match of [p] that starts at the head of [s]: the text left after
    it, [None] when there is none. *)
Definition match_here (p : pattern) (s : text) : option text :=
  mtch (ignorecase p) (body p) s (fun s' => Some s').

(** [re.search(p, s)]: the span of the leftmost match; [pos] is the
    index of the head of [s] in the whole text. *)
Fixpoint search_from (p : pattern) (pos : nat) (s : text) : option (nat * nat) :=
  match match_here p s with
  | Some rest => Some (pos, pos + (length s - length rest))
  | None =>
      match s with
      | [] => None
      | _ :: s' => search_from p (S pos) s'
      end
  end.

Definition span_text (t : text) (sp : nat * nat) : text :=
  firstn (snd sp - fst sp) (skipn (fst sp) t).

(** [m.group(0)] of [re.search(p, t)]. *)
Definition search (p : pattern) (t : text) : option text :=
  option_map (span_text t) (search_from p 0 t).

(** [re.finditer(p, t)]: the spans of the matches, left to right, not
    overlapping. [skip] characters belong to the match before and are
    passed over. After an empty match the scan moves on by one character;
    no pattern of the program matches the empty text. *)
Fixpoint finditer_from (p : pattern) (pos skip : nat) (s : text) : list (nat * nat) :=
  match skip with
  | S n =>
      match s with
      | [] => []
      | _ :: s' => finditer_from p (S pos) n s'
      end
  | O =>
      match match_here p s with
      | Some rest =>
          let len := length s - length rest in
          (pos, pos + len) ::
            match s with
            | [] => []
            | _ :: s' => finditer_from p (S pos) (pred len) s'
            end
      | None =>
          match s with
          | [] => []
          | _ :: s' => finditer_from p (S pos) 0 s'
          end
      end
  end.

Definition finditer_spans (p : pattern) (t : text) : list (nat * nat) :=
  finditer_from p 0 0 t.

(** The [m.group(0)] of each match of [re.finditer(p, t)]. *)
Definition finditer (p : pattern) (t : text) : list text :=
  map (span_text t) (finditer_spans p t).

End Re.

(** ** The program *)

Module Crawler.
Import Re.

(** *** Configuration *)

Definition BASE_URL : text := str "https://www.courtsofnz.govt.nz/".
Definition SEARCH_URL : text :=
  str "https://www.courtsofnz.govt.nz/the-courts/supreme-court/judgments-supreme".

(** [range(2004, 2026)] *)
Definition YEARS_TO_CRAWL : list nat := seq 2004 (2026 - 2004).

Definition chars (s : string) : list item := map IChar (str s).

(** [[^\n]] *)
Definition not_newline : re := In true [IChar nl].

(** [[^\n]*PHRASE[^\n]*], the shape of five of the six patterns. *)
Definition line_with (phrase : string) : re :=
  cats [Rep 0 None true not_newline; lits (str phrase); Rep 0 None true not_newline].

(** [(?:[^\n.!?]*[\s\n]){0,50}] *)
Definition clauses : re :=
  Rep 0 (Some 50) true
      (Grp false (Cat (Rep 0 None true (In true (IChar nl :: chars ".!?")))
                      (In false [ISpace; IChar nl]))).

(** [(?:[\.!?](?=\s|$))] *)
Definition sentence_end : re :=
  Grp false (Cat (In false (chars ".!?")) (Look (Alt (In false [ISpace]) Eos))).

Definition question_re : re :=
  cats [clauses; lits (str "The question is whether"); Rep 0 None false Any; sentence_end].

(** [PATTERNS], in the order of the dict. The fifth pattern starts with
    the group [(i)], not with the flag [(?i)]. *)
Definition PATTERNS : list (text * pattern) :=
  [ (str "The question is whether", Pattern true question_re);
    (str "The leading case", Pattern true (line_with "The leading case"));
    (str "The leading authority", Pattern true (line_with "The leading authority"));
    (str "The issue here is whether", Pattern true (line_with "The issue here is whether"));
    (str "The applicable test is",
      Pattern false (Cat (Grp true (Lit "i")) (line_with "The applicable test is")));
    (str "The applicable threshold is", Pattern true (line_with "The applicable threshold is")) ].

(** [r'\[\d{4}\] NZSC \d+'] *)
Definition citation_re : pattern :=
  Pattern false
    (cats [Lit "["; Rep 4 (Some 4) true (In false [IDigit]); lits (str "] NZSC ");
           Rep 1 None true (In false [IDigit])]).

(** [r'\.pdf$'] *)
Definition pdf_re : pattern := Pattern false (Cat (lits (str ".pdf")) Eos).

(** *** Data *)

(** An [<a>] tag: [get_text(strip=True)] and the [href] attribute, which
    may be absent. *)
Record a_tag : Type := { a_text : text; a_href : option text }.

(** A [div.result] of a listing page: [find('h3')] with its [find('a')],
    and the text of [find('p', class_='meta-data')]. *)
Record result_row : Type :=
  { h3 : option (option a_tag); meta_data : option text }.

(** The dict [proposition_data], keys in the order of the literal. *)
Record proposition_data : Type :=
  { doc_id : text; title : text; url : text; proposition : text;
    citation : text; pattern_matched : text }.

(** [pd.DataFrame(list of dicts)] *)
Record DataFrame : Type :=
  { columns : list text; index : list nat; rows : list (list text) }.

(** What the network, the PDF library and the two writers of the table
    answer. [inl e] is a request or a library call that raises, with the
    message [e]. A page of a PDF yields [Some text] or [None]. [to_csv] and
    [to_excel] answer [Some e] when the call raises with the message [e] (the
    file cannot be written, or the writer refuses a cell), [None] when it
    returns. [urljoin] is taken as it is on links it accepts: a link on which
    it raises is not modelled. *)
Record World : Type :=
  { get_listing : nat -> nat -> text + list result_row;
    get_details : text -> text + list a_tag;
    get_pdf : text -> text + list (text + option text);
    urljoin : text -> text -> text;
    to_csv : text -> DataFrame -> option text;
    to_excel : text -> DataFrame -> option text }.

(** [ToCsv] and [ToExcel] stand for a call of [df.to_csv] and of
    [df.to_excel] that has returned: the file is written. *)
Inductive event : Type :=
| Print (line : text)
| Sleep (seconds : nat)
| ToCsv (path : text) (with_index : bool) (encoding : text) (df : DataFrame)
| ToExcel (path : text) (with_index : bool) (df : DataFrame).

Inductive exn : Type :=
| AttributeError                  (* None has no attribute 'find' *)
| KeyError                        (* tag['href'] on a tag without href *)
| OutputError (message : text).   (* raised by df.to_csv or df.to_excel *)

Record state : Type :=
  { all_propositions : list proposition_data; trace : list event }.

Inductive result (A : Type) : Type :=
| Ok (a : A)
| Raise (e : exn)
| OutOfFuel.
Arguments Ok {A} a.
Arguments Raise {A} e.
Arguments OutOfFuel {A}.

Definition M (A : Type) : Type := state -> result A * state.

Definition ret {A} (a : A) : M A := fun st => (Ok a, st).

Definition bind {A B} (c : M A) (k : A -> M B) : M B :=
  fun st =>
    match c st with
    | (Ok a, st') => k a st'
    | (Raise e, st') => (Raise e, st')
    | (OutOfFuel, st') => (OutOfFuel, st')
    end.

Definition raise {A} (e : exn) : M A := fun st => (Raise e, st).
Definition out_of_fuel {A} : M A := fun st => (OutOfFuel, st).

Definition emit (e : event) : M unit :=
  fun st => (Ok tt, {| all_propositions := all_propositions st;
                       trace := trace st ++ [e] |}).

Definition print (line : text) : M unit := emit (Print line).

Definition append (p : proposition_data) : M unit :=
  fun st => (Ok tt, {| all_propositions := all_propositions st ++ [p];
                       trace := trace st |}).

Declare Scope crawl_scope.
Delimit Scope crawl_scope with crawl.
Notation "x <- c ;; k" := (bind c (fun x => k))
  (at level 61, c at next level, right associativity) : crawl_scope.
Notation "c ;; k" := (bind c (fun _ => k))
  (at level 61, right associativity) : crawl_scope.
Local Open Scope crawl_scope.

Fixpoint for_each {A} (f : A -> M unit) (l : list A) : M unit :=
  match l with
  | [] => ret tt
  | x :: l' => f x ;; for_each f l'
  end.

(** [str(n)] of a non-negative [int]. *)
Definition str_of_nat (n : nat) : text :=
  str (NilEmpty.string_of_uint (Nat.to_uint n)).

(** *** Functions *)

(** [get_soup], given what the request answers. *)
Definition get_soup {S} (answer : text + S) (u : text) : M (option S) :=
  match answer with
  | inr soup => ret (Some soup)
  | inl e => print (str "Error fetching " ++ u ++ str ": " ++ e) ;; ret None
  end.

(** The loop over [pdf.pages]; [inl e] when a page raises. *)
Fixpoint pages_text (pages : list (text + option text)) (full_text : text)
  : text + text :=
  match pages with
  | [] => inr full_text
  | inl e :: _ => inl e
  | inr t :: rest =>
      match t with
      | Some (c :: w) => pages_text rest (full_text ++ (c :: w) ++ [nl])
      | _ => pages_text rest full_text
      end
  end.

Definition extract_text_from_pdf (w : World) (pdf_url : text) : M text :=
  let failed e :=
    print (str "Error processing PDF " ++ pdf_url ++ str ": " ++ e) ;; ret [] in
  match get_pdf w pdf_url with
  | inl e => failed e
  | inr pages =>
      match pages_text pages [] with
      | inr full_text => ret full_text
      | inl e => failed e
      end
  end.

(** [citation.replace('[', '').replace(']', '').replace(' ', '_')] *)
Definition make_doc_id (cit : text) : text :=
  replace " " (str "_") (replace "]" [] (replace "[" [] cit)).

Definition make_proposition (cit case_title pdf_url pattern_name m : text)
  : proposition_data :=
  {| doc_id := make_doc_id cit;
     title := case_title;
     url := pdf_url;
     proposition := strip m;
     citation := cit;
     pattern_matched := pattern_name |}.

(** The two loops over [PATTERNS.items()] and [re.finditer]. *)
Definition match_document (cit case_title pdf_url document_text : text) : M unit :=
  for_each (fun entry : text * pattern =>
    let (pattern_name, regex) := entry in
    for_each (fun m =>
      append (make_proposition cit case_title pdf_url pattern_name m) ;;
      print (str "      > Match found for: '" ++ pattern_name ++ str "'"))
      (finditer regex document_text))
    PATTERNS.

(** The propositions [match_document] appends, as a list. *)
Definition matcher (pats : list (text * pattern)) (document_text : text)
  : list (text * text) :=
  flat_map (fun entry : text * pattern =>
    map (fun m => (fst entry, strip m)) (finditer (snd entry) document_text)) pats.

(** [details_soup.find('a', href=re.compile(r'\.pdf$'))]: the [href] of
    the first [<a>] that has one in which the pattern is found. *)
Fixpoint find_pdf (anchors : list a_tag) : option text :=
  match anchors with
  | [] => None
  | a :: rest =>
      match a_href a with
      | Some h => match search pdf_re h with
                  | Some _ => Some h
                  | None => find_pdf rest
                  end
      | None => find_pdf rest
      end
  end.

Definition find_citation (year : nat) (meta : text) : text :=
  match search citation_re meta with
  | Some c => c
  | None => str "UNKNOWN_CITATION_" ++ str_of_nat year
  end.

(** The body of [for result in results]; [continue] is the return. *)
Definition process_row (w : World) (year : nat) (row : result_row) : M unit :=
  match h3 row with
  | None => raise AttributeError
  | Some case_title_tag =>
      match case_title_tag, meta_data row with
      | Some a, Some meta =>
          let case_title := a_text a in
          match a_href a with
          | None => raise KeyError
          | Some href =>
              let case_details_url := urljoin w BASE_URL href in
              let cit := find_citation year meta in
              print (str "  Found Case: " ++ case_title ++ str " (" ++ cit ++ str ")") ;;
              details_soup <- get_soup (get_details w case_details_url) case_details_url ;;
              match details_soup with
              | None => ret tt
              | Some anchors =>
                  match find_pdf anchors with
                  | None =>
                      print (str "    - PDF link not found for " ++ case_title)
                  | Some pdf_href =>
                      let pdf_url := urljoin w BASE_URL pdf_href in
                      print (str "    - Extracting text from PDF: " ++ pdf_url) ;;
                      document_text <- extract_text_from_pdf w pdf_url ;;
                      match document_text with
                      | [] => print (str "    - Failed to extract text from PDF.")
                      | _ :: _ =>
                          match_document cit case_title pdf_url document_text ;;
                          emit (Sleep 1)
                      end
                  end
              end
          end
      | _, _ => ret tt
      end
  end.

(** [while True] of one year; [fuel] bounds the number of listing pages. *)
Fixpoint crawl_pages (w : World) (fuel : nat) (year start_index : nat) : M unit :=
  match fuel with
  | O => out_of_fuel
  | S fuel' =>
      print (str "Fetching page with start index: " ++ str_of_nat start_index ++ str "...") ;;
      soup <- get_soup (get_listing w year start_index) SEARCH_URL ;;
      match soup with
      | None => ret tt
      | Some [] =>
          print (str "No more results found for " ++ str_of_nat year
                 ++ str ". Moving to next year.")
      | Some results =>
          for_each (process_row w year) results ;;
          crawl_pages w fuel' year (start_index + 10)
      end
  end.

Definition crawl (w : World) (fuel : nat) : M unit :=
  for_each (fun year =>
    print (nl :: str "--- Processing Year: " ++ str_of_nat year ++ str " ---") ;;
    crawl_pages w fuel year 0) YEARS_TO_CRAWL.

Definition row_of (p : proposition_data) : list text :=
  [doc_id p; title p; url p; proposition p; citation p; pattern_matched p].

Definition keys : list text :=
  map str ["doc_id"; "title"; "url"; "proposition"; "citation"; "pattern_matched"]%string.

(** [pd.DataFrame(all_propositions)] for a list that is not empty: the
    columns are the keys of the dicts, the rows keep the order of the
    list, the index is [0 .. n-1]. *)
Definition make_DataFrame (l : list proposition_data) : DataFrame :=
  {| columns := keys; index := seq 0 (length l); rows := map row_of l |}.

(** [df.to_csv(path, index=..., encoding=...)]: nothing catches what it
    raises. *)
Definition df_to_csv (w : World) (df : DataFrame) (path : text) (with_index : bool)
    (encoding : text) : M unit :=
  match to_csv w path df with
  | Some e => raise (OutputError e)
  | None => emit (ToCsv path with_index encoding df)
  end.

(** [df.to_excel(path, index=...)] *)
Definition df_to_excel (w : World) (df : DataFrame) (path : text) (with_index : bool)
  : M unit :=
  match to_excel w path df with
  | Some e => raise (OutputError e)
  | None => emit (ToExcel path with_index df)
  end.

(** The end of [main], from [if not all_propositions]. *)
Definition export (w : World) : M unit :=
  fun st =>
    match all_propositions st with
    | [] => print (str "No propositions were extracted. The output files will be empty.") st
    | props =>
        let df := make_DataFrame props in
        (df_to_csv w df (str "NZSC_Propositions_Export.csv") false (str "utf-8-sig") ;;
         df_to_excel w df (str "NZSC_Propositions_Export.xlsx") false ;;
         print (nl :: str "Successfully saved " ++ str_of_nat (length props)
                ++ str " propositions to:") ;;
         print (str "- NZSC_Propositions_Export.csv") ;;
         print (str "- NZSC_Propositions_Export.xlsx")) st
    end.

(** [main] up to the end of the loop over the years. *)
Definition crawl_all (w : World) (fuel : nat) : M unit :=
  print (str "Starting crawler...") ;;
  crawl w fuel.

Definition main (w : World) (fuel : nat) : M unit :=
  crawl_all w fuel ;;
  print (nl :: str "--- Crawling complete. Saving data... ---") ;;
  export w.

Definition init : state := {| all_propositions := []; trace := [] |}.

End Crawler.

(** ** Notions the statements use *)

Module Spec.
Import Re Crawler.

(** [s] with every character of [cs] taken out. *)
Definition removed (cs : list ascii) (s : text) : text :=
  filter (fun c => negb (existsb (Ascii.eqb c) cs)) s.

(** [s] with every space turned into an underscore. *)
Definition underscored (s : text) : text :=
  map (fun c => if Ascii.eqb c " " then "_"%char else c) s.

(** A character that is none of the bracket characters and not a space. *)
Definition plain (c : ascii) : Prop :=
  c <> "["%char /\ c <> "]"%char /\ c <> " "%char.

(** The events of a completed write of an output file. *)
Definition is_file (e : event) : bool :=
  match e with
  | ToCsv _ _ _ _ | ToExcel _ _ _ => true
  | _ => false
  end.

Definition files_written (st : state) : list event := filter is_file (trace st).

Definition is_csv (e : event) : bool :=
  match e with
  | ToCsv _ _ _ _ => true
  | _ => false
  end.

(** The text [extract_text_from_pdf] returns, without its effects. *)
Definition pdf_text (w : World) (pdf_url : text) : text :=
  match get_pdf w pdf_url with
  | inl _ => []
  | inr pages => match pages_text pages [] with
                 | inr full_text => full_text
                 | inl _ => []
                 end
  end.

(** Texts joined with a separator between them. *)
Fixpoint join (sep : text) (l : list text) : text :=
  match l with
  | [] => []
  | [t] => t
  | t :: l' => t ++ sep ++ join sep l'
  end.

(** Two characters that differ at most in letter case. *)
Definition same_letter (a b : ascii) : Prop := tolower a = tolower b.

(** Two texts that differ at most in letter case. *)
Definition same_letters (s t : text) : Prop := Forall2 same_letter s t.

(** [t] starts with [p], in the letter case of [p] or, with [ic], in any. *)
Fixpoint starts_with (ic : bool) (p t : text) : bool :=
  match p, t with
  | [], _ => true
  | c :: p', x :: t' => char_eq ic c x && starts_with ic p' t'
  | _ :: _, [] => false
  end.

(** [p] occurs somewhere in [t]. *)
Fixpoint contains (ic : bool) (p t : text) : bool :=
  starts_with ic p t ||
  match t with
  | [] => false
  | _ :: t' => contains ic p t'
  end.

Definition not_nl (c : ascii) : bool := negb (Ascii.eqb c nl).

(** The first line of a text, and what follows it from the newline on. *)
Fixpoint line (t : text) : text :=
  match t with
  | c :: t' => if not_nl c then c :: line t' else []
  | [] => []
  end.

Fixpoint after_line (t : text) : text :=
  match t with
  | c :: t' => if not_nl c then after_line t' else t
  | [] => []
  end.

(** The sentence-terminal marks of the patterns. *)
Definition terminal (c : ascii) : bool :=
  Ascii.eqb c "." || Ascii.eqb c "!" || Ascii.eqb c "?".

Definition ends_with_terminal (t : text) : bool :=
  match rev t with
  | c :: _ => terminal c
  | [] => false
  end.

(** A repeat of one-character steps, by recursion on the text: the greedy
    one tries the longer run first, the lazy one the shorter. *)
Fixpoint star_greedy (p : ascii -> bool) (s : text) (k : cont) : option text :=
  match s with
  | c :: s' =>
      if p c then match star_greedy p s' k with
                  | Some x => Some x
                  | None => k s
                  end
      else k s
  | [] => k s
  end.

Fixpoint star_lazy (p : ascii -> bool) (s : text) (k : cont) : option text :=
  match k s with
  | Some x => Some x
  | None => match s with
            | c :: s' => if p c then star_lazy p s' k else None
            | [] => None
            end
  end.

(** The end of a sentence as the first pattern sees it: a terminal mark
    with white space or the end of the text behind it. The result is the
    text after the mark. *)
Definition followed_by_space (s : text) : bool :=
  match s with
  | [] => true
  | d :: _ => isspace d
  end.

Definition sentence_stop (s : text) : option text :=
  match s with
  | c :: s' => if terminal c && followed_by_space s' then Some s' else None
  | [] => None
  end.

(** A link target that [r'\.pdf$'] is found in: it ends with [.pdf], or
    with [.pdf] and one newline. *)
Definition ends_with_pdf (h : text) : Prop :=
  exists pre, h = pre ++ str ".pdf" \/ h = pre ++ str ".pdf" ++ [nl].

(** An [<a>] that [find('a', href=re.compile(r'\.pdf$'))] passes over. *)
Definition not_pdf_link (a : a_tag) : Prop :=
  forall h, a_href a = Some h -> ~ ends_with_pdf h.

(** The lines of a text, split at the newlines. *)
Fixpoint lines (t : text) : list text :=
  match t with
  | [] => [[]]
  | c :: t' =>
      if not_nl c then
        match lines t' with
        | l :: ls => (c :: l) :: ls
        | [] => [[c]]
        end
      else [] :: lines t'
  end.

(** A computation that ends normally, leaves the records alone and at
    most adds to the trace. *)
Definition quiet {A} (c : M A) : Prop :=
  forall st, exists a tr,
    c st = (Ok a, {| all_propositions := all_propositions st;
                     trace := trace st ++ tr |}).

(** The record of one match, from the name of its pattern and its
    proposition. *)
Definition record_of (cit case_title pdf_url : text) (e : text * text)
  : proposition_data :=
  {| doc_id := make_doc_id cit; title := case_title; url := pdf_url;
     proposition := snd e; citation := cit; pattern_matched := fst e |}.

(** [c'] does what [c] does whenever [c] ends without running out of
    fuel. *)
Definition covers {A} (c c' : M A) : Prop :=
  forall st r st', c st = (r, st') -> r <> OutOfFuel -> c' st = (r, st').



(** The propositions the matcher gives for the pattern of one name. *)
Definition text_eqb (a b : text) : bool :=
  if list_eq_dec ascii_dec a b then true else false.

Definition propositions_of (name : text) (document_text : text) : list text :=
  map snd (filter (fun e => text_eqb (fst e) name) (matcher PATTERNS document_text)).

(** The page texts that [if text:] lets through. *)
Definition page_texts (pages : list (option text)) : list text :=
  flat_map (fun t => match t with
                     | Some (c :: w) => [c :: w]
                     | _ => []
                     end) pages.

End Spec.

(** ** Small worlds to run the program in *)

Module Example.
Import Re Crawler.

Fixpoint text_eqb (a b : text) : bool :=
  match a, b with
  | [], [] => true
  | x :: a', y :: b' => Ascii.eqb x y && text_eqb a' b'
  | _, _ => false
  end.

(** A site without any judgment. *)
Definition empty_site : World :=
  {| get_listing := fun _ _ => inr [];
     get_details := fun _ => inl (str "404");
     get_pdf := fun _ => inl (str "404");
     urljoin := fun base href => base ++ href;
     to_csv := fun _ _ => None;
     to_excel := fun _ _ => None |}.

Definition smith : result_row :=
  {| h3 := Some (Some {| a_text := str "R v Smith";
                         a_href := Some (str "cases/r-v-smith") |});
     meta_data := Some (str "Date: 1 March 2021 Citation: [2021] NZSC 12") |}.

(** One judgment in 2021, whose PDF has one page with the given text. *)
Definition one_case (row : result_row) (page : option text) : World :=
  {| get_listing := fun year start =>
       if (year =? 2021) && (start =? 0) then inr [row] else inr [];
     get_details := fun u =>
       if text_eqb u (BASE_URL ++ str "cases/r-v-smith")
       then inr [ {| a_text := str "Home"; a_href := Some (str "index.html") |};
                  {| a_text := str "Judgment"; a_href := Some (str "judgment.pdf") |} ]
       else inl (str "404");
     get_pdf := fun u =>
       if text_eqb u (BASE_URL ++ str "judgment.pdf")
       then inr [inr page] else inl (str "404");
     urljoin := fun base href => base ++ href;
     to_csv := fun _ _ => None;
     to_excel := fun _ _ => None |}.

Definition smith_site : World :=
  one_case smith (Some (str "The leading authority on this point is XYZ.")).

(** The state after the crawl of the site without any judgment. *)
Definition empty_run : state := snd (crawl_all empty_site 1 init).

(** The state after the crawl of the site with the one judgment. *)
Definition smith_crawl : state := snd (crawl_all smith_site 2 init).

(** A site whose PDFs have a first page with text and a second page on
    which the extraction raises. *)
Definition broken_pdf : World :=
  {| get_listing := fun _ _ => inr [];
     get_details := fun _ => inl (str "404");
     get_pdf := fun _ => inr [inr (Some (str "page one")); inl (str "bad page")];
     urljoin := fun base href => base ++ href;
     to_csv := fun _ _ => None;
     to_excel := fun _ _ => None |}.

(** A character that openpyxl refuses in a cell: a control character
    other than tab, newline and carriage return. *)
Definition refused_in_cell (c : ascii) : bool :=
  let n := code c in
  (n <=? 8) || (n =? 11) || (n =? 12) || ((14 <=? n) && (n <=? 31)).

(** The site [w] on a machine where [to_excel] writes with openpyxl: the
    call raises when a cell holds such a character. *)
Definition with_openpyxl (w : World) : World :=
  {| get_listing := get_listing w;
     get_details := get_details w;
     get_pdf := get_pdf w;
     urljoin := urljoin w;
     to_csv := to_csv w;
     to_excel := fun _ df =>
       if existsb (existsb (existsb refused_in_cell)) (rows df)
       then Some (str "IllegalCharacterError") else None |}.

(** One judgment whose matching line holds a form feed. *)
Definition form_feed_site : World :=
  with_openpyxl
    (one_case smith
       (Some (str "The leading case" ++ ascii_of_nat 12 :: str " is Smith v Jones."))).

Definition form_feed_crawl : state := snd (crawl_all form_feed_site 2 init).

(** A row whose metadata holds no citation. *)
Definition uncited : result_row :=
  {| h3 := Some (Some {| a_text := str "R v Smith";
                         a_href := Some (str "cases/r-v-smith") |});
     meta_data := Some (str "Date: 1 March 2021") |}.

Definition uncited_site : World :=
  one_case uncited (Some (str "The leading authority on this point is XYZ.")).

(** A row whose heading link has no [href]. *)
Definition no_href_row : result_row :=
  {| h3 := Some (Some {| a_text := str "R v Smith"; a_href := None |});
     meta_data := Some (str "[2021] NZSC 12") |}.

(** A row without any [<h3>]. *)
Definition bare_row : result_row :=
  {| h3 := None; meta_data := Some (str "[2021] NZSC 12") |}.

End Example.

(** ** Notions the proofs use *)

Module Notions.
Import Re Crawler Spec.

(** What a match looks like: the language of a pattern

    [lang ic r m rest]: [m] is matched by [r] when [rest] follows it (the
    lookahead and [$] see [rest]). Priorities play no role here. *)

Fixpoint lang_rep (L : text -> text -> Prop) (n : nat) (m rest : text) : Prop :=
  match n with
  | O => m = []
  | S n' => exists m1 m2, m = m1 ++ m2 /\ L m1 (m2 ++ rest) /\ lang_rep L n' m2 rest
  end.

Fixpoint lang (ic : bool) (r : re) (m rest : text) : Prop :=
  match r with
  | Eps => m = []
  | Lit c => exists x, m = [x] /\ char_eq ic c x = true
  | Any => exists x, m = [x] /\ Ascii.eqb x nl = false
  | In neg items => exists x, m = [x] /\ in_set ic neg items x = true
  | Cat a b =>
      exists m1 m2, m = m1 ++ m2 /\ lang ic a m1 (m2 ++ rest) /\ lang ic b m2 rest
  | Alt a b => lang ic a m rest \/ lang ic b m rest
  | Rep lo hi _ a =>
      exists n, lo <= n /\ (forall h, hi = Some h -> n <= h)
                /\ lang_rep (lang ic a) n m rest
  | Grp _ a => lang ic a m rest
  | Look a => m = [] /\ exists m' rest', rest = m' ++ rest' /\ lang ic a m' rest'
  | Eos => m = [] /\ (rest = [] \/ rest = [nl])
  end.

(** A matcher is sound for [L] when each of its results comes from a
    split of the text into a word of [L] and what the continuation got. *)
Definition sound (m : Re.matcher) (L : text -> text -> Prop) : Prop :=
  forall s k x, m s k = Some x ->
    exists w rest, s = w ++ rest /\ L w rest /\ k rest = Some x.

(** Results that differ at most in letter case. *)
Definition orel (x y : option text) : Prop :=
  match x, y with
  | Some a, Some b => same_letters a b
  | None, None => True
  | _, _ => False
  end.

Definition krel (k k' : cont) : Prop :=
  forall u u', same_letters u u' -> orel (k u) (k' u').

Definition mrel (m m' : Re.matcher) : Prop :=
  forall s s' k k', same_letters s s' -> krel k k' -> orel (m s k) (m' s' k').

(** A text without a terminal mark. *)
Definition no_terminal (s : text) : Prop := Forall (fun c => terminal c = false) s.

(** What holds of every record and of every event of a state. *)
Definition good (P : proposition_data -> Prop) (Q : event -> Prop) (st : state) : Prop :=
  Forall P (all_propositions st) /\ Forall Q (trace st).


(** A computation that keeps it. *)
Definition keeps {A} (P : proposition_data -> Prop) (Q : event -> Prop) (c : M A) : Prop :=
  forall st, good P Q st -> good P Q (snd (c st)).

End Notions.

Import Notions.

(** ** Facts about text *)

Module TextFacts.

Lemma all_ascii_complete (c : ascii) : In c all_ascii.
Proof.
  rewrite <- (ascii_nat_embedding c).
  apply in_map, in_seq. pose proof (nat_ascii_bounded c). lia.
Qed.

(** A boolean property that holds on the enumeration holds everywhere. *)
Lemma forall_ascii (P : ascii -> bool) :
  forallb P all_ascii = true -> forall c, P c = true.
Proof.
  intros H c. rewrite forallb_forall in H. apply H, all_ascii_complete.
Qed.

(** Two tests that agree on the enumeration agree everywhere. *)
Lemma forall_ascii_eq (f g : ascii -> bool) :
  forallb (fun c => Bool.eqb (f c) (g c)) all_ascii = true -> forall c, f c = g c.
Proof.
  intros H c. apply Bool.eqb_prop. exact (forall_ascii _ H c).
Qed.

Lemma replace_app old new s t :
  replace old new (s ++ t) = replace old new s ++ replace old new t.
Proof.
  induction s as [|c s IH]; simpl; [reflexivity|].
  now rewrite IH, app_assoc.
Qed.

Lemma replace_absent old new s :
  Forall (fun c => c <> old) s -> replace old new s = s.
Proof.
  induction 1 as [|c s Hc _ IH]; simpl; [reflexivity|].
  apply Ascii.eqb_neq in Hc. now rewrite Hc, IH.
Qed.

Lemma in_replace old new s x :
  In x (replace old new s) -> (In x s /\ x <> old) \/ In x new.
Proof.
  induction s as [|c s IH]; simpl; [tauto|].
  rewrite in_app_iff. intros [H|H].
  - destruct (Ascii.eqb c old) eqn:E.
    + now right.
    + destruct H as [<-|[]]. apply Ascii.eqb_neq in E. left; split; auto.
  - destruct (IH H) as [[H1 H2]|H1]; [left; split; auto | now right].
Qed.

(** [replace] as a map over the characters, when [new] is one character. *)
Lemma replace_map old new s :
  replace old [new] s = map (fun c => if Ascii.eqb c old then new else c) s.
Proof.
  induction s as [|c s IH]; simpl; [reflexivity|].
  rewrite IH. now destruct (Ascii.eqb c old).
Qed.

(** [replace] as a filter, when [new] is empty. *)
Lemma replace_filter old s :
  replace old [] s = filter (fun c => negb (Ascii.eqb c old)) s.
Proof.
  induction s as [|c s IH]; simpl; [reflexivity|].
  rewrite IH. now destruct (Ascii.eqb c old).
Qed.

Lemma isdigit_plain c :
  isdigit c = true -> c <> "["%char /\ c <> "]"%char /\ c <> " "%char.
Proof.
  intros H. repeat split; intros ->; discriminate H.
Qed.

Lemma lstrip_id c s : isspace c = false -> lstrip (c :: s) = c :: s.
Proof. intros H; simpl; now rewrite H. Qed.

(** [strip] leaves a text alone that neither starts nor ends with white
    space. *)
Lemma strip_id s a b t :
  s = a :: t -> (exists u, s = u ++ [b]) ->
  isspace a = false -> isspace b = false -> strip s = s.
Proof.
  intros -> [u Hu] Ha Hb. unfold strip, rstrip.
  rewrite (lstrip_id a t Ha), Hu, rev_app_distr. simpl.
  rewrite Hb. simpl. now rewrite rev_involutive.
Qed.

End TextFacts.

(** ** Facts about the matcher *)

Module ReFacts.
Import Re.

Lemma one_sound (p : ascii -> bool) :
  sound (one p) (fun w _ => exists x, w = [x] /\ p x = true).
Proof.
  intros [|c s] k x; simpl; [discriminate|].
  destruct (p c) eqn:E; [|discriminate].
  intros H. exists [c], s. eauto.
Qed.

Lemma rep_sound (m : matcher) (L : text -> text -> Prop) (g : bool) :
  sound m L ->
  forall hi lo s k x, rep m g lo hi s k = Some x ->
    exists n w rest, s = w ++ rest /\ lo <= n <= hi /\ lang_rep L n w rest
                     /\ k rest = Some x.
Proof.
  intros Hm. induction hi as [|hi IH]; intros lo s k x; simpl.
  - destruct lo; [|discriminate]. intros H.
    exists 0, [], s. simpl. auto.
  - assert (step : forall lo', m s (fun s' => rep m g lo' hi s' k) = Some x ->
              exists n w rest, s = w ++ rest /\ S lo' <= n <= S hi
                               /\ lang_rep L n w rest /\ k rest = Some x).
    { intros lo' H. apply Hm in H. destruct H as (w1 & r1 & -> & HL & H).
      apply IH in H. destruct H as (n & w2 & r2 & -> & Hn & HR & Hk).
      exists (S n), (w1 ++ w2), r2. rewrite app_assoc. repeat split; try lia; auto.
      simpl. exists w1, w2. auto. }
    assert (stop : k s = Some x ->
              exists n w rest, s = w ++ rest /\ 0 <= n <= S hi
                               /\ lang_rep L n w rest /\ k rest = Some x).
    { intros H. exists 0, [], s. simpl. repeat split; auto; lia. }
    destruct lo as [|lo'].
    + destruct g.
      * destruct (m s (fun s' => rep m true 0 hi s' k)) eqn:E.
        -- intros [= ->]. destruct (step 0 E) as (n & w & r & ? & ? & ? & ?).
           exists n, w, r. repeat split; auto; lia.
        -- apply stop.
      * destruct (k s) eqn:E.
        -- intros [= ->]. now apply stop.
        -- intros H. destruct (step 0 H) as (n & w & r & ? & ? & ? & ?).
           exists n, w, r. repeat split; auto; lia.
    + intros H. now apply step.
Qed.

Theorem mtch_sound ic r : sound (mtch ic r) (lang ic r).
Proof.
  induction r as [| c | | neg items | a IHa b IHb | a IHa b IHb
                 | lo hi g a IHa | cap a IHa | a IHa | ]; intros s k x; simpl.
  - intros H. exists [], s. auto.
  - intros H. apply one_sound in H. destruct H as (w & r & ? & ? & ?). eauto.
  - intros H. apply one_sound in H. destruct H as (w & r & ? & (c & ? & Hc) & ?).
    exists w, r. repeat split; auto. exists c. split; auto.
    now apply negb_true_iff in Hc.
  - intros H. apply one_sound in H. destruct H as (w & r & ? & ? & ?). eauto.
  - intros H. apply IHa in H. destruct H as (w1 & r1 & -> & H1 & H).
    apply IHb in H. destruct H as (w2 & r2 & -> & H2 & H).
    exists (w1 ++ w2), r2. rewrite app_assoc. repeat split; auto.
    exists w1, w2. auto.
  - destruct (mtch ic a s k) eqn:E.
    + intros [= ->]. apply IHa in E. destruct E as (w & r & ? & ? & ?).
      exists w, r. auto.
    + intros H. apply IHb in H. destruct H as (w & r & ? & ? & ?).
      exists w, r. auto.
  - intros H. apply (rep_sound _ _ g IHa) in H.
    destruct H as (n & w & r & ? & Hn & HL & Hk).
    exists w, r. repeat split; auto. exists n. repeat split; auto; try lia.
    intros h ->. lia.
  - apply IHa.
  - destruct (mtch ic a s (fun _ => Some [])) eqn:E; [|discriminate].
    intros H. apply IHa in E. destruct E as (w & r & ? & ? & _).
    exists [], s. repeat split; auto. exists w, r. auto.
  - destruct s as [|c [|d s]]; try discriminate.
    + intros H. exists [], []. repeat split; auto.
    + destruct (Ascii.eqb c nl) eqn:E; [|discriminate].
      apply Ascii.eqb_eq in E. subst c. intros H.
      exists [], [nl]. repeat split; auto.
Qed.

(** A match at the head of [s] leaves a suffix of [s]. *)
Lemma match_here_sound p s rest :
  match_here p s = Some rest ->
  exists w, s = w ++ rest /\ lang (ignorecase p) (body p) w rest.
Proof.
  unfold match_here. intros H. apply mtch_sound in H.
  destruct H as (w & r & -> & HL & [= ->]). eauto.
Qed.

Lemma length_minus_suffix (w rest : text) :
  length (w ++ rest) - length rest = length w.
Proof. rewrite length_app. lia. Qed.

Lemma search_from_eq p pos s :
  search_from p pos s =
  match match_here p s with
  | Some rest => Some (pos, pos + (length s - length rest))
  | None => match s with
            | [] => None
            | _ :: s' => search_from p (S pos) s'
            end
  end.
Proof. destruct s; reflexivity. Qed.

Lemma search_from_sound p s :
  forall pos a e, search_from p pos s = Some (a, e) ->
    exists pre w rest, s = pre ++ w ++ rest /\ a = pos + length pre
                       /\ e = a + length w /\ match_here p (w ++ rest) = Some rest.
Proof.
  induction s as [|c s IH]; intros pos a e; rewrite search_from_eq.
  - destruct (match_here p []) as [rest|] eqn:E; [|discriminate].
    intros [= <- <-]. destruct (match_here_sound _ _ _ E) as (w & Hw & _).
    symmetry in Hw. apply app_eq_nil in Hw. destruct Hw as [-> ->].
    exists [], [], []. simpl. repeat split; auto; lia.
  - destruct (match_here p (c :: s)) as [rest|] eqn:E.
    + intros H. destruct (match_here_sound _ _ _ E) as (w & Hw & _).
      rewrite Hw in H, E. rewrite length_minus_suffix in H.
      injection H as <- <-. exists [], w, rest. rewrite Hw.
      simpl. repeat split; auto; lia.
    + intros H. apply IH in H. destruct H as (pre & w & rest & -> & -> & -> & H).
      exists (c :: pre), w, rest. simpl. repeat split; auto; lia.
Qed.

Lemma span_text_mid (pre w rest : text) :
  span_text (pre ++ w ++ rest) (length pre, length pre + length w) = w.
Proof.
  unfold span_text. simpl.
  replace (length pre + length w - length pre) with (length w) by lia.
  rewrite skipn_app, skipn_all, Nat.sub_diag. simpl.
  rewrite firstn_app, firstn_all, Nat.sub_diag. simpl. apply app_nil_r.
Qed.

Lemma finditer_from_eq p pos skip s :
  finditer_from p pos skip s =
  match skip with
  | S n => match s with
           | [] => []
           | _ :: s' => finditer_from p (S pos) n s'
           end
  | O => match match_here p s with
         | Some rest =>
             (pos, pos + (length s - length rest)) ::
               match s with
               | [] => []
               | _ :: s' => finditer_from p (S pos) (pred (length s - length rest)) s'
               end
         | None => match s with
                   | [] => []
                   | _ :: s' => finditer_from p (S pos) 0 s'
                   end
         end
  end.
Proof. destruct s, skip; reflexivity. Qed.

(** [re.search] returns a piece of the text that the pattern matches. *)
Theorem search_sound p t c :
  search p t = Some c ->
  exists pre rest, t = pre ++ c ++ rest
                   /\ lang (ignorecase p) (body p) c rest.
Proof.
  unfold search. destruct (search_from p 0 t) as [[a e]|] eqn:E; [|discriminate].
  simpl. intros [= <-]. apply search_from_sound in E.
  destruct E as (pre & w & rest & -> & -> & -> & H).
  apply match_here_sound in H. destruct H as (w' & Hw & HL).
  apply app_inv_tail in Hw. subst w'.
  exists pre, rest. simpl. rewrite span_text_mid. auto.
Qed.

End ReFacts.

(** ** Facts about the program *)

Module CrawlerFacts.
Import Re Crawler TextFacts ReFacts.
Local Open Scope crawl_scope.

(** *** What stays true of the state through every step *)

Create HintDb keeps.

Section Keeps.
Variable P : proposition_data -> Prop.
Variable Q : event -> Prop.

Lemma keeps_ret {A} (a : A) : keeps P Q (ret a).
Proof. intros st H; exact H. Qed.

Lemma keeps_raise {A} e : keeps P Q (@raise A e).
Proof. intros st H; exact H. Qed.

Lemma keeps_out_of_fuel {A} : keeps P Q (@out_of_fuel A).
Proof. intros st H; exact H. Qed.

Lemma keeps_bind {A B} (c : M A) (k : A -> M B) :
  keeps P Q c -> (forall a, keeps P Q (k a)) -> keeps P Q (bind c k).
Proof.
  intros Hc Hk st H. unfold bind. specialize (Hc st H).
  destruct (c st) as [[a| |] st']; simpl in *; auto. now apply Hk.
Qed.

Lemma keeps_emit e : Q e -> keeps P Q (emit e).
Proof.
  intros He st [H1 H2]. split; simpl; auto.
  apply Forall_app; auto.
Qed.

Lemma keeps_append p : P p -> keeps P Q (append p).
Proof.
  intros Hp st [H1 H2]. split; simpl; auto.
  apply Forall_app; auto.
Qed.

Lemma keeps_for_each {A} (f : A -> M unit) l :
  (forall x, keeps P Q (f x)) -> keeps P Q (for_each f l).
Proof.
  intros Hf. induction l as [|x l IH]; simpl.
  - apply keeps_ret.
  - apply keeps_bind; auto.
Qed.

Hypothesis Q_print : forall line, Q (Print line).
Hypothesis Q_sleep : forall n, Q (Sleep n).
Hypothesis P_make : forall c t u n m, P (make_proposition c t u n m).

Lemma keeps_print line : keeps P Q (print line).
Proof. apply keeps_emit, Q_print. Qed.

Local Hint Resolve keeps_ret keeps_raise keeps_out_of_fuel keeps_print
  keeps_bind keeps_for_each : keeps.

Lemma keeps_get_soup {S} (answer : text + S) u : keeps P Q (get_soup answer u).
Proof. destruct answer; simpl; auto with keeps. Qed.

Lemma keeps_extract w u : keeps P Q (extract_text_from_pdf w u).
Proof.
  unfold extract_text_from_pdf.
  destruct (get_pdf w u) as [e|pages]; auto with keeps.
  destruct (pages_text pages []); auto with keeps.
Qed.

Lemma keeps_match_document c t u d : keeps P Q (match_document c t u d).
Proof.
  unfold match_document. apply keeps_for_each. intros [name regex].
  apply keeps_for_each. intros m. apply keeps_bind.
  - apply keeps_append, P_make.
  - intros _. apply keeps_print.
Qed.

Lemma keeps_process_row w year row : keeps P Q (process_row w year row).
Proof.
  unfold process_row.
  destruct (h3 row) as [[a|]|]; auto with keeps.
  destruct (meta_data row) as [meta|]; auto with keeps.
  destruct (a_href a) as [href|]; auto with keeps.
  apply keeps_bind; auto with keeps. intros _.
  apply keeps_bind; [apply keeps_get_soup|]. intros [anchors|]; auto with keeps.
  destruct (find_pdf anchors) as [h|]; auto with keeps.
  apply keeps_bind; auto with keeps. intros _.
  apply keeps_bind; [apply keeps_extract|]. intros [|c d]; auto with keeps.
  apply keeps_bind; [apply keeps_match_document|]. intros _.
  apply keeps_emit, Q_sleep.
Qed.

Lemma keeps_crawl_pages w fuel :
  forall year start_index, keeps P Q (crawl_pages w fuel year start_index).
Proof.
  induction fuel as [|fuel IH]; intros year start_index; simpl.
  - apply keeps_out_of_fuel.
  - apply keeps_bind; auto with keeps. intros _.
    apply keeps_bind; [apply keeps_get_soup|]. intros [[|r rs]|]; auto with keeps.
    apply keeps_bind; auto. apply keeps_for_each. intros x. apply keeps_process_row.
Qed.

Lemma keeps_crawl w fuel : keeps P Q (crawl w fuel).
Proof.
  unfold crawl. apply keeps_for_each. intros year.
  apply keeps_bind; auto with keeps. intros _. apply keeps_crawl_pages.
Qed.
End Keeps.

(** *** [str(n)] *)



(** *** [doc_id] *)

Import Spec.

Lemma make_doc_id_plain cit : Forall plain (make_doc_id cit).
Proof.
  apply Forall_forall. intros x Hx. unfold make_doc_id in Hx.
  apply in_replace in Hx. destruct Hx as [[Hx H3]|Hx].
  - apply in_replace in Hx. destruct Hx as [[Hx H2]|[]].
    apply in_replace in Hx. destruct Hx as [[Hx H1]|[]].
    repeat split; assumption.
  - simpl in Hx. destruct Hx as [<-|[]]. repeat split; discriminate.
Qed.

Lemma make_doc_id_id cit : Forall plain cit -> make_doc_id cit = cit.
Proof.
  intros H. unfold make_doc_id.
  rewrite (replace_absent "[" [] cit), (replace_absent "]" [] cit),
    (replace_absent " " _ cit); try reflexivity;
    (eapply Forall_impl; [|exact H]); intros c (H1 & H2 & H3); assumption.
Qed.

Lemma make_doc_id_app a b : make_doc_id (a ++ b) = make_doc_id a ++ make_doc_id b.
Proof. unfold make_doc_id. now rewrite !replace_app. Qed.

Lemma digits_plain s : Forall (fun c => isdigit c = true) s -> Forall plain s.
Proof. apply Forall_impl. intros c H. now apply isdigit_plain. Qed.

End CrawlerFacts.

(** ** The citation pattern *)

Module CitationFacts.
Import Re Crawler TextFacts ReFacts CrawlerFacts.

Lemma lang_lits_exact t : forall m rest, lang false (lits t) m rest -> m = t.
Proof.
  induction t as [|c t IH]; simpl; intros m rest H.
  - exact H.
  - destruct H as (m1 & m2 & -> & (x & -> & Hx) & H2).
    apply Ascii.eqb_eq in Hx. subst x. simpl. f_equal. eapply IH, H2.
Qed.

Lemma lang_rep_digits ic n :
  forall m rest, lang_rep (lang ic (In false [IDigit])) n m rest ->
    length m = n /\ Forall (fun c => isdigit c = true) m.
Proof.
  induction n as [|n IH]; simpl; intros m rest H.
  - subst m. split; [reflexivity | constructor].
  - destruct H as (m1 & m2 & -> & (x & -> & Hx) & H2).
    apply IH in H2. destruct H2 as [Hl Hd]. simpl. split; [now rewrite Hl|].
    constructor; auto. unfold in_set in Hx. simpl in Hx.
    now rewrite orb_false_r in Hx.
Qed.

(** What [r'\[\d{4}\] NZSC \d+'] matches: a bracketed year of four
    digits, the court, a number of at least one digit. *)
Lemma citation_shape c rest :
  lang false (body citation_re) c rest ->
  exists y n, c = "["%char :: y ++ str "] NZSC " ++ n
              /\ length y = 4 /\ Forall (fun d => isdigit d = true) y
              /\ n <> [] /\ Forall (fun d => isdigit d = true) n.
Proof.
  unfold citation_re, body, cats, fold_right.
  cbn [lang]. intros (m1 & r1 & -> & (x & -> & Hx) & H).
  destruct H as (y & r2 & -> & (k & Hk4 & Hk & Hy) & H).
  destruct H as (l & r3 & -> & Hl & H).
  destruct H as (n & r4 & -> & (j & Hj1 & _ & Hn) & ->).
  apply Ascii.eqb_eq in Hx. subst x.
  apply lang_lits_exact in Hl. subst l.
  apply lang_rep_digits in Hy, Hn. destruct Hy as [Hy1 Hy2], Hn as [Hn1 Hn2].
  specialize (Hk 4 eq_refl).
  exists y, n. rewrite app_nil_r. repeat split; auto; try lia.
  intros ->. simpl in Hn1. lia.
Qed.

Lemma make_doc_id_citation y n :
  Forall (fun d => isdigit d = true) y -> Forall (fun d => isdigit d = true) n ->
  make_doc_id ("["%char :: y ++ str "] NZSC " ++ n) = y ++ str "_NZSC_" ++ n.
Proof.
  intros Hy Hn. change ("["%char :: y ++ str "] NZSC " ++ n)
    with (str "[" ++ y ++ str "] NZSC " ++ n).
  rewrite !make_doc_id_app.
  rewrite (make_doc_id_id y), (make_doc_id_id n); auto using digits_plain.
Qed.

(** The chain of [replace] calls takes the brackets out and turns the
    spaces into underscores. *)
Lemma make_doc_id_spec cit :
  make_doc_id cit = Spec.underscored (Spec.removed ["["; "]"]%char cit).
Proof.
  unfold make_doc_id, Spec.underscored, Spec.removed.
  change (str "_") with ["_"%char].
  rewrite replace_map, !replace_filter. f_equal.
  induction cit as [|c cit IH]; simpl in *; [reflexivity|].
  destruct (Ascii.eqb c "[") eqn:E1; simpl; [exact IH|].
  destruct (Ascii.eqb c "]") eqn:E2; simpl; [exact IH | now rewrite IH].
Qed.

End CitationFacts.

(** ** Runs of the whole program *)

Module RunFacts.
Import Re Crawler TextFacts ReFacts CrawlerFacts.
Local Open Scope crawl_scope.

Lemma keeps_df_to_csv P w df path i enc :
  keeps P (fun _ => True) (df_to_csv w df path i enc).
Proof.
  unfold df_to_csv. destruct (to_csv w path df); [apply keeps_raise | now apply keeps_emit].
Qed.

Lemma keeps_df_to_excel P w df path i :
  keeps P (fun _ => True) (df_to_excel w df path i).
Proof.
  unfold df_to_excel.
  destruct (to_excel w path df); [apply keeps_raise | now apply keeps_emit].
Qed.

Lemma keeps_export P w : keeps P (fun _ => True) (export w).
Proof.
  intros st H. unfold export.
  destruct (all_propositions st) as [|p ps] eqn:E.
  - now apply (keeps_emit P (fun _ => True)).
  - revert st H E. intros st H _.
    apply (keeps_bind P (fun _ => True)); [apply keeps_df_to_csv | intros _| exact H].
    apply keeps_bind; [apply keeps_df_to_excel | intros _].
    repeat (apply keeps_bind; [now apply keeps_emit | intros _]).
    now apply keeps_emit.
Qed.

Lemma keeps_crawl_all P Q w fuel :
  (forall line, Q (Print line)) -> (forall n, Q (Sleep n)) ->
  (forall c t u n m, P (make_proposition c t u n m)) ->
  keeps P Q (crawl_all w fuel).
Proof.
  intros Hp Hs Hm. unfold crawl_all. apply keeps_bind.
  - apply keeps_emit, Hp.
  - intros _. now apply keeps_crawl.
Qed.

(** Whatever holds of every record that [make_proposition] builds holds
    of every record a run has appended. *)
Lemma main_propositions (P : proposition_data -> Prop) w fuel :
  (forall c t u n m, P (make_proposition c t u n m)) ->
  Forall P (all_propositions (snd (main w fuel init))).
Proof.
  intros Hm.
  assert (K : keeps P (fun _ => True) (main w fuel)).
  { unfold main. apply keeps_bind; [now apply keeps_crawl_all|]. intros _.
    apply keeps_bind; [now apply keeps_emit|]. intros _. apply keeps_export. }
  apply K. split; constructor.
Qed.

(** The crawl writes no file. *)
Lemma crawl_all_no_file w fuel :
  Spec.files_written (snd (crawl_all w fuel init)) = [].
Proof.
  assert (K : keeps (fun _ => True) (fun e => Spec.is_file e = false)
                    (crawl_all w fuel)).
  { now apply keeps_crawl_all. }
  destruct (K init) as [_ H]; [split; constructor|].
  unfold Spec.files_written. induction H as [|e l He _ IH]; simpl; auto.
  now rewrite He.
Qed.

Lemma extract_text_result w u st :
  exists tr, extract_text_from_pdf w u st
             = (Ok (Spec.pdf_text w u),
                {| all_propositions := all_propositions st; trace := trace st ++ tr |}).
Proof.
  unfold extract_text_from_pdf, Spec.pdf_text.
  destruct (get_pdf w u) as [e|pages].
  - eexists. reflexivity.
  - destruct (pages_text pages []).
    + eexists. reflexivity.
    + exists []. unfold ret. rewrite app_nil_r. now destruct st.
Qed.

Lemma pages_text_acc texts : forall acc,
  pages_text (map inr texts) acc
  = inr (acc ++ concat (map (fun t => t ++ [nl]) (Spec.page_texts texts))).
Proof.
  induction texts as [|t texts IH]; intros acc; simpl.
  - now rewrite app_nil_r.
  - destruct t as [[|c w]|]; simpl; rewrite IH; auto.
    f_equal. rewrite <- app_assoc. reflexivity.
Qed.

End RunFacts.

Import Re Crawler.
Local Open Scope crawl_scope.

(** ** Repeats of one character and the line patterns *)

Module LineFacts.
Import TextFacts ReFacts Spec.

Lemma rep_one_greedy p k : forall hi s,
  length s <= hi -> rep (one p) true 0 hi s k = star_greedy p s k.
Proof.
  induction hi as [|hi IH]; intros s Hs.
  - destruct s; [reflexivity | simpl in Hs; lia].
  - destruct s as [|c s]; [reflexivity|].
    simpl in Hs. simpl. destruct (p c); [|reflexivity].
    rewrite IH by lia. reflexivity.
Qed.

Lemma rep_one_lazy p k : forall hi s,
  length s <= hi -> rep (one p) false 0 hi s k = star_lazy p s k.
Proof.
  induction hi as [|hi IH]; intros s Hs.
  - destruct s; [simpl; now destruct (k [])| simpl in Hs; lia].
  - destruct s as [|c s]; simpl.
    + now destruct (k []).
    + simpl in Hs. destruct (k (c :: s)); [reflexivity|].
      destruct (p c); [|reflexivity]. apply IH. lia.
Qed.

Lemma lits_starts_with ic t : forall s k,
  mtch ic (lits t) s k
  = if starts_with ic t s then k (skipn (length t) s) else None.
Proof.
  induction t as [|c t IH]; intros s k; simpl.
  - reflexivity.
  - destruct s as [|x s]; simpl; [reflexivity|].
    destruct (char_eq ic c x); simpl; [apply IH | reflexivity].
Qed.

(** [[^\n]] in either mode is "not a newline". *)
Lemma in_not_newline ic c : in_set ic true [IChar nl] c = not_nl c.
Proof.
  revert c. apply forall_ascii_eq. destruct ic; vm_compute; reflexivity.
Qed.

Lemma star_greedy_ext p q s k :
  (forall c, p c = q c) -> star_greedy p s k = star_greedy q s k.
Proof.
  intros H. induction s as [|c s IH]; simpl; [reflexivity|].
  now rewrite H, IH.
Qed.

Lemma star_greedy_to_end s : star_greedy not_nl s (fun r => Some r) = Some (after_line s).
Proof.
  induction s as [|c s IH]; simpl; [reflexivity|].
  destruct (not_nl c); [now rewrite IH | reflexivity].
Qed.

Lemma star_greedy_cont p s k k' :
  (forall u, k u = k' u) -> star_greedy p s k = star_greedy p s k'.
Proof.
  intros H. induction s as [|c s IH]; simpl; [apply H|].
  now rewrite IH, H.
Qed.

(** A character that is not a newline is not matched by a newline. *)
Lemma char_eq_newline ic c x :
  not_nl c = true -> not_nl x = false -> char_eq ic c x = false.
Proof.
  intros Hc Hx. unfold not_nl in Hx. apply negb_false_iff, Ascii.eqb_eq in Hx.
  subst x. revert Hc.
  assert (E : forall c, (not_nl c && char_eq ic c nl) = false).
  { apply (forall_ascii_eq (fun c => not_nl c && char_eq ic c nl) (fun _ => false)).
    destruct ic; vm_compute; reflexivity. }
  intros Hc. specialize (E c). now rewrite Hc in E.
Qed.

Lemma starts_with_line ic p : forall t,
  forallb not_nl p = true -> starts_with ic p t = starts_with ic p (line t).
Proof.
  induction p as [|c p IH]; intros t Hp; [reflexivity|].
  simpl in Hp. apply andb_true_iff in Hp. destruct Hp as [Hc Hp].
  destruct t as [|x t]; simpl; [reflexivity|].
  destruct (not_nl x) eqn:Hx; simpl.
  - now rewrite (IH t Hp).
  - now rewrite (char_eq_newline ic c x Hc Hx).
Qed.

Lemma after_line_skip ic p : forall t,
  forallb not_nl p = true -> starts_with ic p t = true ->
  after_line (skipn (length p) t) = after_line t.
Proof.
  induction p as [|c p IH]; intros t Hp Ht; [reflexivity|].
  simpl in Hp. apply andb_true_iff in Hp. destruct Hp as [Hc Hp].
  destruct t as [|x t]; simpl in *; [discriminate|].
  apply andb_true_iff in Ht. destruct Ht as [Hx Ht].
  destruct (not_nl x) eqn:E.
  - now apply IH.
  - rewrite (char_eq_newline ic c x Hc E) in Hx. discriminate.
Qed.

(** The greedy run over a line, followed by the phrase and the rest of the
    line: it succeeds when the phrase occurs in the line, and the match is
    the whole line. *)
Lemma star_greedy_phrase ic p :
  p <> [] -> forallb not_nl p = true ->
  forall s,
    star_greedy not_nl s
      (fun s1 => if starts_with ic p s1
                 then Some (after_line (skipn (length p) s1)) else None)
    = if contains ic p (line s) then Some (after_line s) else None.
Proof.
  intros Hne Hp. induction s as [|c s IH].
  - destruct p; [contradiction | reflexivity].
  - cbn [star_greedy line after_line]. destruct (not_nl c) eqn:Hc.
    + rewrite IH. cbn [contains].
      destruct (contains ic p (line s)); [now rewrite orb_true_r|].
      rewrite orb_false_r.
      rewrite (starts_with_line ic p (c :: s) Hp). cbn [line]. rewrite Hc.
      destruct (starts_with ic p (c :: line s)) eqn:E; [|reflexivity].
      rewrite (after_line_skip ic p (c :: s) Hp).
      * cbn [after_line]. now rewrite Hc.
      * rewrite (starts_with_line ic p (c :: s) Hp). cbn [line]. now rewrite Hc.
    + rewrite (starts_with_line ic p (c :: s) Hp). cbn [line]. rewrite Hc.
      destruct p; [contradiction | reflexivity].
Qed.

(** What a line pattern matches at the head of a text. *)
Theorem line_with_match ic (phrase : string) s :
  str phrase <> [] -> forallb not_nl (str phrase) = true ->
  match_here (Pattern ic (line_with phrase)) s
  = if contains ic (str phrase) (line s) then Some (after_line s) else None.
Proof.
  intros Hne Hp. unfold match_here, line_with, cats. cbn [ignorecase body fold_right mtch].
  unfold not_newline. cbn [mtch].
  rewrite rep_one_greedy by lia.
  rewrite (star_greedy_ext _ not_nl) by apply in_not_newline.
  rewrite <- (star_greedy_phrase ic (str phrase) Hne Hp).
  apply star_greedy_cont. intros u. rewrite lits_starts_with.
  destruct (starts_with ic (str phrase) u); [|reflexivity].
  rewrite rep_one_greedy by lia.
  rewrite (star_greedy_ext _ not_nl) by apply in_not_newline.
  apply star_greedy_to_end.
Qed.

Lemma line_no_newline s : forallb not_nl s = true -> line s = s /\ after_line s = [].
Proof.
  induction s as [|c s IH]; simpl; [auto|].
  intros H. apply andb_true_iff in H. destruct H as [Hc Hs].
  rewrite Hc. destruct (IH Hs) as [-> ->]. auto.
Qed.

Lemma line_before_newline s r :
  forallb not_nl s = true -> line (s ++ nl :: r) = s /\ after_line (s ++ nl :: r) = nl :: r.
Proof.
  induction s as [|c s IH]; simpl; [auto|].
  intros H. apply andb_true_iff in H. destruct H as [Hc Hs].
  rewrite Hc. destruct (IH Hs) as [-> ->]. auto.
Qed.

(** The characters of a match are passed over. *)
Lemma finditer_from_skip p a : forall pos b,
  finditer_from p pos (length a) (a ++ b) = finditer_from p (pos + length a) 0 b.
Proof.
  induction a as [|c a IH]; intros pos b.
  - simpl. now rewrite Nat.add_0_r.
  - cbn [length app]. rewrite finditer_from_eq. rewrite IH. f_equal. lia.
Qed.

(** One match that ends where nothing more is found. *)
Lemma finditer_one_match p t r :
  t <> [] -> match_here p (t ++ r) = Some r ->
  finditer_from p (length t) 0 r = [] ->
  finditer_spans p (t ++ r) = [(0, length t)]
  /\ finditer p (t ++ r) = [t].
Proof.
  intros Ht Hm Hr.
  assert (E : finditer_spans p (t ++ r) = [(0, length t)]).
  { unfold finditer_spans. rewrite finditer_from_eq, Hm, length_minus_suffix.
    destruct t as [|c t]; [contradiction|].
    cbn [app length pred]. rewrite finditer_from_skip.
    cbn [Nat.add]. change (S (length t)) with (length (c :: t)). now rewrite Hr. }
  split; [exact E|]. unfold finditer. rewrite E. cbn [map].
  unfold span_text. cbn [fst snd skipn]. rewrite Nat.sub_0_r.
  rewrite firstn_app, firstn_all, Nat.sub_diag. cbn [firstn]. now rewrite app_nil_r.
Qed.

Lemma contains_nonempty ic p t : p <> [] -> contains ic p t = true -> t <> [].
Proof.
  intros Hp H ->. destruct p; [contradiction | discriminate].
Qed.

(** A line pattern on a text of one line that holds the phrase, with or
    without the newline that ends a page: the line is the one match. *)
Lemma line_with_one_line (phrase : string) t :
  str phrase <> [] -> forallb not_nl (str phrase) = true ->
  forallb not_nl t = true -> contains true (str phrase) t = true ->
  finditer (Pattern true (line_with phrase)) t = [t]
  /\ finditer (Pattern true (line_with phrase)) (t ++ [nl]) = [t].
Proof.
  intros Hne Hp Ht Hc.
  pose proof (contains_nonempty true _ t Hne Hc) as Hn.
  assert (N0 : forall n, finditer_from (Pattern true (line_with phrase)) n 0 [] = []).
  { intros n. rewrite finditer_from_eq, line_with_match by assumption.
    destruct (str phrase); [contradiction | reflexivity]. }
  assert (N1 : forall n, finditer_from (Pattern true (line_with phrase)) n 0 [nl] = []).
  { intros n. rewrite finditer_from_eq, line_with_match by assumption.
    cbn [line]. replace (not_nl nl) with false by reflexivity.
    destruct (str phrase); [contradiction|]. cbn [contains starts_with orb]. apply N0. }
  split.
  - rewrite <- (app_nil_r t) at 1.
    apply finditer_one_match; auto.
    rewrite line_with_match by assumption. rewrite app_nil_r.
    destruct (line_no_newline t Ht) as [-> ->]. now rewrite Hc.
  - apply finditer_one_match; auto.
    rewrite line_with_match by assumption.
    destruct (line_before_newline t [] Ht) as [-> ->]. now rewrite Hc.
Qed.

Lemma line_split s : s = line s ++ after_line s.
Proof.
  induction s as [|c s IH]; simpl; [reflexivity|].
  destruct (not_nl c); simpl; [now rewrite <- IH | reflexivity].
Qed.

Lemma after_line_newline s : after_line s = [] \/ exists r, after_line s = nl :: r.
Proof.
  induction s as [|c s IH]; simpl; [now left|].
  destruct (not_nl c) eqn:E; [exact IH|]. right. exists s.
  unfold not_nl in E. apply negb_false_iff, Ascii.eqb_eq in E. now subst c.
Qed.

Lemma lines_eq s :
  lines s = line s :: match after_line s with
                      | [] => []
                      | _ :: r => lines r
                      end.
Proof.
  induction s as [|c s IH]; simpl; [reflexivity|].
  destruct (not_nl c); [now rewrite IH | reflexivity].
Qed.

Lemma line_length s : length s - length (after_line s) = length (line s).
Proof.
  rewrite (line_split s) at 1. apply length_minus_suffix.
Qed.

Lemma length_after_line s : length (after_line s) <= length s.
Proof.
  rewrite (line_split s) at 2. rewrite length_app. lia.
Qed.

(** The matches of a line pattern, line by line. *)
Section Lines.
Variable phrase : string.
Hypothesis phrase_not_empty : str phrase <> [].
Hypothesis phrase_one_line : forallb not_nl (str phrase) = true.

Let P : pattern := Pattern true (line_with phrase).
Let has (l : text) : bool := contains true (str phrase) l.

Lemma has_nil : has [] = false.
Proof. unfold has. destruct (str phrase); [contradiction | reflexivity]. Qed.

Lemma finditer_line_none s : forall pos,
  has (line s) = false ->
  finditer_from P pos 0 s = finditer_from P (pos + length (line s)) 0 (after_line s).
Proof.
  induction s as [|c s IH]; intros pos H.
  - cbn [line after_line length]. now rewrite Nat.add_0_r.
  - cbn [line after_line] in *. destruct (not_nl c) eqn:E.
    + rewrite finditer_from_eq. unfold P at 1.
      rewrite line_with_match by assumption.
      cbn [line]. rewrite E. fold (has (c :: line s)). rewrite H.
      unfold has in H. cbn [contains] in H. apply orb_false_iff in H.
      rewrite IH by apply H. cbn [length]. f_equal. lia.
    + cbn [length]. now rewrite Nat.add_0_r.
Qed.

Lemma finditer_line_some s pos :
  has (line s) = true ->
  finditer_from P pos 0 s
  = (pos, pos + length (line s))
      :: finditer_from P (pos + length (line s)) 0 (after_line s).
Proof.
  intros H. rewrite finditer_from_eq. unfold P at 1.
  rewrite line_with_match by assumption. fold (has (line s)). rewrite H.
  rewrite !line_length. f_equal.
  destruct s as [|c s]; cbn [line after_line] in *;
    [rewrite has_nil in H; discriminate|].
  destruct (not_nl c).
  - cbn [length pred].
    replace (finditer_from P (S pos) (length (line s)) s)
      with (finditer_from P (S pos) (length (line s)) (line s ++ after_line s))
      by now rewrite <- line_split.
    rewrite finditer_from_skip. f_equal. lia.
  - rewrite has_nil in H. discriminate.
Qed.

Lemma finditer_at_newline r pos :
  finditer_from P pos 0 (nl :: r) = finditer_from P (S pos) 0 r.
Proof.
  rewrite finditer_from_eq. unfold P at 1. rewrite line_with_match by assumption.
  cbn [line]. replace (not_nl nl) with false by reflexivity.
  fold (has []). now rewrite has_nil.
Qed.

Lemma finditer_at_end pos : finditer_from P pos 0 [] = [].
Proof.
  rewrite finditer_from_eq. unfold P at 1. rewrite line_with_match by assumption.
  cbn [line]. fold (has []). now rewrite has_nil.
Qed.

Lemma finditer_lines n : forall s pre,
  length s <= n ->
  map (span_text (pre ++ s)) (finditer_from P (length pre) 0 s)
  = filter has (lines s).
Proof.
  induction n as [|n IH]; intros s pre Hn.
  - destruct s; [|simpl in Hn; lia]. rewrite finditer_at_end. simpl.
    now rewrite has_nil.
  - rewrite lines_eq. cbn [filter].
    assert (rest : map (span_text (pre ++ s))
                     (finditer_from P (length pre + length (line s)) 0 (after_line s))
                   = filter has match after_line s with
                                | [] => []
                                | _ :: r => lines r
                                end).
    { pose proof (length_after_line s) as Hl.
      destruct (after_line_newline s) as [E|[r E]]; rewrite E in *.
      - now rewrite finditer_at_end.
      - rewrite finditer_at_newline.
        rewrite (line_split s) at 1. rewrite E.
        replace (pre ++ line s ++ nl :: r) with ((pre ++ line s ++ [nl]) ++ r)
          by now rewrite <- !app_assoc.
        replace (S (length pre + length (line s)))
          with (length (pre ++ line s ++ [nl]))
          by (rewrite !length_app; simpl; lia).
        apply IH. simpl in Hl. lia. }
    destruct (has (line s)) eqn:H.
    + rewrite finditer_line_some by assumption. cbn [map]. rewrite rest. f_equal.
      rewrite (line_split s) at 1. apply span_text_mid.
    + rewrite finditer_line_none by assumption. exact rest.
Qed.

(** The matches of [[^\n]*PHRASE[^\n]*] with [(?i)] are the lines of the
    text that hold the phrase, in the order of the text. *)
Theorem finditer_line_with t :
  finditer (Pattern true (line_with phrase)) t
  = filter (contains true (str phrase)) (lines t).
Proof.
  unfold finditer, finditer_spans.
  exact (finditer_lines (length t) t [] (le_n _)).
Qed.

End Lines.

Lemma filter_named (name name' : text) (g : text -> text) l :
  filter (fun e : text * text => text_eqb (fst e) name) (map (fun m => (name', g m)) l)
  = if text_eqb name' name then map (fun m => (name', g m)) l else [].
Proof.
  induction l as [|m l IH]; simpl.
  - now destruct (text_eqb name' name).
  - rewrite IH. now destruct (text_eqb name' name).
Qed.

(** The propositions under the name of the second pattern are the matches
    of the second pattern, stripped. *)
Lemma propositions_of_leading_case t :
  propositions_of (str "The leading case") t
  = map strip (finditer (Pattern true (line_with "The leading case")) t).
Proof.
  unfold propositions_of, matcher, PATTERNS. cbn [flat_map fst snd].
  rewrite !filter_app, !filter_named.
  replace (text_eqb (str "The question is whether") (str "The leading case"))
    with false by (vm_compute; reflexivity).
  replace (text_eqb (str "The leading case") (str "The leading case"))
    with true by (vm_compute; reflexivity).
  replace (text_eqb (str "The leading authority") (str "The leading case"))
    with false by (vm_compute; reflexivity).
  replace (text_eqb (str "The issue here is whether") (str "The leading case"))
    with false by (vm_compute; reflexivity).
  replace (text_eqb (str "The applicable test is") (str "The leading case"))
    with false by (vm_compute; reflexivity).
  replace (text_eqb (str "The applicable threshold is") (str "The leading case"))
    with false by (vm_compute; reflexivity).
  cbn [filter app]. rewrite app_nil_r, map_map. reflexivity.
Qed.

End LineFacts.

(** ** Letter case *)

Module CaseFacts.
Import TextFacts ReFacts Spec.

Lemma orel_or_else a a' b b' :
  orel a a' -> orel b b' ->
  orel (match a with Some x => Some x | None => b end)
       (match a' with Some x => Some x | None => b' end).
Proof. destruct a, a'; simpl; tauto. Qed.

Lemma same_letter_test (f : ascii -> bool) :
  (forall c, f (tolower c) = f c) ->
  forall a b, same_letter a b -> f a = f b.
Proof.
  intros H a b E. unfold same_letter in E. now rewrite <- (H a), <- (H b), E.
Qed.

Lemma isspace_tolower c : isspace (tolower c) = isspace c.
Proof. revert c. apply forall_ascii_eq. vm_compute. reflexivity. Qed.

Lemma isdigit_tolower c : isdigit (tolower c) = isdigit c.
Proof. revert c. apply forall_ascii_eq. vm_compute. reflexivity. Qed.

Lemma is_nl_tolower c : Ascii.eqb (tolower c) nl = Ascii.eqb c nl.
Proof. revert c. apply forall_ascii_eq. vm_compute. reflexivity. Qed.

Lemma terminal_tolower c : terminal (tolower c) = terminal c.
Proof. revert c. apply forall_ascii_eq. vm_compute. reflexivity. Qed.

Lemma char_eq_same p a b : same_letter a b -> char_eq true p a = char_eq true p b.
Proof. intros E. unfold char_eq, ci_char. now rewrite E. Qed.

Lemma item_match_same i a b :
  same_letter a b -> item_match true i a = item_match true i b.
Proof.
  intros E. destruct i; simpl.
  - now apply char_eq_same.
  - now apply (same_letter_test isspace isspace_tolower).
  - now apply (same_letter_test isdigit isdigit_tolower).
Qed.

Lemma in_set_same neg items a b :
  same_letter a b -> in_set true neg items a = in_set true neg items b.
Proof.
  intros E. unfold in_set. f_equal.
  induction items as [|i items IH]; simpl; [reflexivity|].
  now rewrite IH, (item_match_same i a b E).
Qed.

Lemma one_rel p : (forall a b, same_letter a b -> p a = p b) -> mrel (one p) (one p).
Proof.
  intros Hp s s' k k' Hs Hk. destruct Hs as [|a b s s' Hab Hs]; simpl; [exact I|].
  rewrite (Hp a b Hab). destruct (p b); [now apply Hk | exact I].
Qed.

Lemma rep_rel m m' g : mrel m m' -> forall hi lo, mrel (rep m g lo hi) (rep m' g lo hi).
Proof.
  intros Hm. induction hi as [|hi IH]; intros lo s s' k k' Hs Hk; simpl.
  - destruct lo; [now apply Hk | exact I].
  - assert (step : forall lo',
              orel (m s (fun u => rep m g lo' hi u k))
                   (m' s' (fun u => rep m' g lo' hi u k'))).
    { intros lo'. apply Hm; auto. intros u u' Hu. now apply IH. }
    destruct lo as [|lo']; [|apply step].
    destruct g; apply orel_or_else; auto.
Qed.

(** With [(?i)], a pattern does not see the letter case of the text. *)
Theorem mtch_rel r : mrel (mtch true r) (mtch true r).
Proof.
  induction r as [| c | | neg items | a IHa b IHb | a IHa b IHb
                 | lo hi g a IHa | cap a IHa | a IHa | ]; simpl.
  - intros s s' k k' Hs Hk. now apply Hk.
  - apply one_rel. intros a b. apply char_eq_same.
  - apply one_rel. intros a b E. f_equal.
    now apply (same_letter_test (fun c => Ascii.eqb c nl) is_nl_tolower).
  - apply one_rel. intros a b. apply in_set_same.
  - intros s s' k k' Hs Hk. apply IHa; auto. intros u u' Hu. now apply IHb.
  - intros s s' k k' Hs Hk. apply orel_or_else; [apply IHa | apply IHb]; auto.
  - intros s s' k k' Hs Hk. rewrite (Forall2_length Hs).
    now apply rep_rel.
  - exact IHa.
  - intros s s' k k' Hs Hk.
    assert (L : orel (mtch true a s (fun _ => Some [])) (mtch true a s' (fun _ => Some []))).
    { apply IHa; auto. intros u u' _. constructor. }
    destruct (mtch true a s (fun _ => Some [])), (mtch true a s' (fun _ => Some []));
      simpl in L; try contradiction; [now apply Hk | exact I].
  - intros s s' k k' Hs Hk.
    destruct Hs as [|a b s s' Hab Hs]; [apply Hk; constructor|].
    destruct Hs as [|a2 b2 s s' Hab2 Hs]; [|exact I].
    rewrite <- (same_letter_test (fun c => Ascii.eqb c nl) is_nl_tolower a b Hab).
    destruct (Ascii.eqb a nl); [|exact I]. apply Hk. repeat constructor; auto.
Qed.

Lemma match_here_rel p s s' :
  ignorecase p = true -> same_letters s s' ->
  orel (match_here p s) (match_here p s').
Proof.
  intros Hp Hs. unfold match_here. rewrite Hp. apply mtch_rel; auto.
  intros u u' Hu. exact Hu.
Qed.

(** The spans of the matches do not depend on the letter case either. *)
Theorem finditer_from_same p s s' :
  ignorecase p = true -> same_letters s s' ->
  forall pos skip, finditer_from p pos skip s = finditer_from p pos skip s'.
Proof.
  intros Hp Hs. induction Hs as [|a b s s' Hab Hs IH]; intros pos skip.
  - reflexivity.
  - rewrite (finditer_from_eq p pos skip (a :: s)), (finditer_from_eq p pos skip (b :: s')).
    destruct skip as [|n]; [|apply IH].
    pose proof (match_here_rel p (a :: s) (b :: s') Hp (Forall2_cons a b Hab Hs)) as R.
    destruct (match_here p (a :: s)) as [r|], (match_here p (b :: s')) as [r'|];
      simpl in R; try contradiction; [|apply IH].
    rewrite (Forall2_length R). cbn [length]. rewrite (Forall2_length Hs).
    f_equal. apply IH.
Qed.

Lemma same_letters_app a a' b : same_letters a a' -> same_letters (a ++ b) (a' ++ b).
Proof.
  intros H. apply Forall2_app; [exact H|].
  induction b; constructor; auto. reflexivity.
Qed.

(** A text of which the pattern with [(?i)] matches the whole: every text
    that differs from it in letter case only is matched as a whole too. *)
Lemma whole_match_any_case p t v n :
  ignorecase p = true -> finditer_spans p t = [(0, n)] -> length t = n ->
  same_letters t v -> finditer p v = [v].
Proof.
  intros Hp Ht Hn Hv. unfold finditer.
  unfold finditer_spans in *. rewrite <- (finditer_from_same p t v Hp Hv), Ht.
  cbn [map]. unfold span_text. cbn [fst snd skipn]. rewrite Nat.sub_0_r.
  rewrite <- Hn, (Forall2_length Hv), firstn_all. reflexivity.
Qed.

(** The six entries of [PATTERNS]. *)
Lemma in_PATTERNS name p :
  List.In (name, p) PATTERNS ->
  (name = str "The question is whether" /\ p = Pattern true question_re)
  \/ (name = str "The leading case" /\ p = Pattern true (line_with "The leading case"))
  \/ (name = str "The leading authority"
      /\ p = Pattern true (line_with "The leading authority"))
  \/ (name = str "The issue here is whether"
      /\ p = Pattern true (line_with "The issue here is whether"))
  \/ (name = str "The applicable test is"
      /\ p = Pattern false (Cat (Grp true (Lit "i")) (line_with "The applicable test is")))
  \/ (name = str "The applicable threshold is"
      /\ p = Pattern true (line_with "The applicable threshold is")).
Proof.
  intros [H|[H|[H|[H|[H|[H|[]]]]]]]; inversion H; subst; tauto.
Qed.

End CaseFacts.

(** ** The pattern of the question *)

Module QuestionFacts.
Import TextFacts ReFacts Spec LineFacts.

(** Every span of [finditer] is a match at its start. *)
Lemma finditer_from_sound p s : forall pos skip a e,
  List.In (a, e) (finditer_from p pos skip s) ->
  exists u w rest, s = u ++ w ++ rest /\ a = pos + length u /\ e = a + length w
                   /\ match_here p (w ++ rest) = Some rest.
Proof.
  induction s as [|c s IH]; intros pos skip a e; rewrite finditer_from_eq.
  - destruct skip; [|intros []].
    destruct (match_here p []) as [rest|] eqn:E; [|intros []].
    destruct (match_here_sound _ _ _ E) as (w & Hw & _).
    symmetry in Hw. apply app_eq_nil in Hw. destruct Hw as [-> ->].
    intros [[= <- <-]|[]]. exists [], [], []. simpl. repeat split; auto; lia.
  - assert (tail : forall n, List.In (a, e) (finditer_from p (S pos) n s) ->
              exists u w rest, c :: s = u ++ w ++ rest /\ a = pos + length u
                               /\ e = a + length w
                               /\ match_here p (w ++ rest) = Some rest).
    { intros n H. apply IH in H. destruct H as (u & w & rest & -> & -> & -> & H).
      exists (c :: u), w, rest. simpl. repeat split; auto; lia. }
    destruct skip as [|n]; [|apply tail].
    destruct (match_here p (c :: s)) as [rest|] eqn:E; [|apply tail].
    intros [H|H]; [|now apply tail in H].
    destruct (match_here_sound _ _ _ E) as (w & Hw & _).
    rewrite Hw in H, E. rewrite length_minus_suffix in H. injection H as <- <-.
    exists [], w, rest. rewrite Hw. simpl. repeat split; auto; lia.
Qed.

Lemma in_terminal_set c : in_set true false (chars ".!?") c = terminal c.
Proof. revert c. apply forall_ascii_eq. vm_compute. reflexivity. Qed.

Lemma in_space_set c : in_set true false [ISpace] c = isspace c.
Proof. unfold in_set. simpl. now rewrite orb_false_r. Qed.

Lemma clause_char c :
  in_set true true (IChar nl :: chars ".!?") c = true -> terminal c = false.
Proof.
  assert (E : forall c, negb (in_set true true (IChar nl :: chars ".!?") c)
                        || negb (terminal c) = true).
  { apply (forall_ascii_eq _ (fun _ => true)). vm_compute. reflexivity. }
  intros H. specialize (E c). rewrite H in E. simpl in E. now apply negb_true_iff.
Qed.

Lemma clause_end_char c :
  in_set true false [ISpace; IChar nl] c = true -> terminal c = false.
Proof.
  assert (E : forall c, negb (in_set true false [ISpace; IChar nl] c)
                        || negb (terminal c) = true).
  { apply (forall_ascii_eq _ (fun _ => true)). vm_compute. reflexivity. }
  intros H. specialize (E c). rewrite H in E. simpl in E. now apply negb_true_iff.
Qed.

Lemma lang_rep_no_terminal (L : text -> text -> Prop) :
  (forall m r, L m r -> no_terminal m) ->
  forall n m r, lang_rep L n m r -> no_terminal m.
Proof.
  intros HL. induction n as [|n IH]; simpl; intros m r H.
  - subst m. constructor.
  - destruct H as (m1 & m2 & -> & H1 & H2). apply Forall_app.
    split; [eapply HL, H1 | eapply IH, H2].
Qed.

(** The clauses before the phrase hold no terminal mark. *)
Lemma clauses_no_terminal g r : lang true clauses g r -> no_terminal g.
Proof.
  unfold clauses. cbn [lang]. intros (n & _ & _ & H).
  revert H. apply lang_rep_no_terminal. clear. intros m r (x & y & -> & Hx & Hy).
  apply Forall_app. split.
  - destruct Hx as (k & _ & _ & Hx). revert Hx. apply lang_rep_no_terminal.
    intros m' r' (c & -> & Hc). constructor; [|constructor]. now apply clause_char.
  - destruct Hy as (c & -> & Hc). constructor; [|constructor].
    now apply clause_end_char.
Qed.

Lemma same_letter_terminal a b : same_letter a b -> terminal a = terminal b.
Proof. apply CaseFacts.same_letter_test, CaseFacts.terminal_tolower. Qed.

Lemma starts_with_no_terminal p : forall t,
  starts_with true p t = true -> no_terminal p ->
  no_terminal (firstn (length p) t).
Proof.
  induction p as [|c p IH]; intros t H Hp; [constructor|].
  destruct t as [|x t]; [discriminate|]. simpl in H.
  apply andb_true_iff in H. destruct H as [Hc H].
  inversion Hp as [|? ? Hc' Hp']; subst. simpl. constructor; [|now apply IH].
  unfold char_eq, ci_char in Hc. apply Ascii.eqb_eq in Hc.
  now rewrite <- (same_letter_terminal c x Hc).
Qed.

Lemma isspace_not_newline d : isspace d = false -> Ascii.eqb d nl = false.
Proof.
  intros H. destruct (Ascii.eqb d nl) eqn:E; [|reflexivity].
  apply Ascii.eqb_eq in E. subst d. discriminate H.
Qed.

(** [(?:[\.!?](?=\s|$))] at the head of a text. *)
Lemma sentence_end_stop s :
  mtch true sentence_end s (fun r => Some r) = sentence_stop s.
Proof.
  unfold sentence_end, sentence_stop. cbn [mtch]. unfold one.
  destruct s as [|c s]; [reflexivity|]. rewrite in_terminal_set.
  destruct (terminal c); [|reflexivity]. cbn [andb].
  destruct s as [|d s]; [reflexivity|]. cbn [followed_by_space].
  rewrite in_space_set. destruct (isspace d) eqn:E; [reflexivity|].
  destruct s; [|reflexivity]. now rewrite (isspace_not_newline d E).
Qed.

Lemma star_lazy_eq p s k :
  star_lazy p s k =
  match k s with
  | Some x => Some x
  | None => match s with
            | c :: s' => if p c then star_lazy p s' k else None
            | [] => None
            end
  end.
Proof. destruct s; reflexivity. Qed.

Lemma star_lazy_cont p s k k' :
  (forall u, k u = k' u) -> star_lazy p s k = star_lazy p s k'.
Proof.
  intros H. induction s as [|c s IH]; simpl; rewrite H; [reflexivity|].
  now rewrite IH.
Qed.

Lemma sentence_stop_tail y y' : sentence_stop y = Some y' -> exists d, y = d :: y'.
Proof.
  destruct y as [|d y]; simpl; [discriminate|].
  destruct (terminal d && followed_by_space y); [|discriminate].
  intros [= <-]. eauto.
Qed.

(** The lazy run stops at the first end of a sentence. *)
Lemma star_lazy_stops z : forall y y' r,
  sentence_stop y = Some y' ->
  star_lazy not_nl (z ++ y) sentence_stop = Some r -> length y' <= length r.
Proof.
  induction z as [|c z IH]; intros y y' r Hy; rewrite star_lazy_eq.
  - simpl. rewrite Hy. now intros [= <-].
  - cbn [app]. destruct (sentence_stop (c :: z ++ y)) as [x|] eqn:E.
    + intros [= <-]. apply sentence_stop_tail in E. destruct E as (d & [= _ <-]).
      apply sentence_stop_tail in Hy. destruct Hy as (d' & ->).
      rewrite length_app. simpl. lia.
    + destruct (not_nl c); [|discriminate]. now apply IH.
Qed.

(** What a match of the first pattern is made of: clauses and the phrase,
    without a terminal mark, then the lazy run up to the end of a sentence. *)
Lemma question_match s rest :
  match_here (Pattern true question_re) s = Some rest ->
  exists x z, s = x ++ z /\ no_terminal x
              /\ star_lazy not_nl z sentence_stop = Some rest.
Proof.
  unfold match_here, question_re, cats. cbn [ignorecase body fold_right].
  set (P := str "The question is whether").
  change (mtch true (Cat clauses (Cat (lits P)
            (Cat (Rep 0 None false Any) (Cat sentence_end Eps)))) s (fun s' => Some s'))
    with (mtch true clauses s (fun s1 => mtch true (lits P) s1 (fun s2 =>
            rep (one (fun c => negb (Ascii.eqb c nl))) false 0 (length s2) s2
                (fun s3 => mtch true sentence_end s3 (fun r => Some r))))).
  intros H. apply mtch_sound in H. destruct H as (g & s1 & -> & Hg & H).
  rewrite lits_starts_with in H.
  destruct (starts_with true P s1) eqn:E; [|discriminate].
  rewrite rep_one_lazy in H by lia.
  rewrite (star_lazy_cont _ _ _ sentence_stop) in H by apply sentence_end_stop.
  exists (g ++ firstn (length P) s1), (skipn (length P) s1).
  rewrite <- app_assoc, firstn_skipn. repeat split; auto.
  apply Forall_app. split.
  - eapply clauses_no_terminal, Hg.
  - apply starts_with_no_terminal; auto.
    subst P. repeat constructor.
Qed.

(** A run without terminal mark that is a prefix of a text with a terminal
    mark ends before the mark. *)
Lemma split_before_terminal x : forall z y d post,
  x ++ z = y ++ d :: post -> no_terminal x -> terminal d = true ->
  exists z1, y = x ++ z1 /\ z = z1 ++ d :: post.
Proof.
  induction x as [|c x IH]; intros z y d post H Hx Hd.
  - exists y. auto.
  - inversion Hx as [|? ? Hc Hx']; subst. destruct y as [|c' y].
    + simpl in H. injection H as -> _. rewrite Hd in Hc. discriminate.
    + simpl in H. injection H as <- H. destruct (IH _ _ _ _ H Hx' Hd) as (z1 & -> & ->).
      exists z1. auto.
Qed.

Lemma split_prefix (u v y w : text) :
  u ++ v = y ++ w -> length u <= length y -> exists y', y = u ++ y' /\ v = y' ++ w.
Proof.
  revert y. induction u as [|c u IH]; intros y H Hl.
  - exists y. auto.
  - destruct y as [|c' y]; [simpl in Hl; lia|].
    simpl in H. injection H as <- H. simpl in Hl.
    destruct (IH y H) as (y' & -> & ->); [lia|]. exists y'. auto.
Qed.

End QuestionFacts.

(** ** Steps that only print, and the loops over the matches *)

Module StepFacts.
Import TextFacts ReFacts CrawlerFacts Spec.

Lemma state_eta st :
  st = {| all_propositions := all_propositions st; trace := trace st ++ [] |}.
Proof. destruct st. simpl. now rewrite app_nil_r. Qed.

Lemma quiet_ret {A} (a : A) : quiet (ret a).
Proof. intros st. exists a, []. unfold ret. now rewrite <- state_eta. Qed.

Lemma quiet_emit e : quiet (emit e).
Proof. intros st. exists tt, [e]. reflexivity. Qed.

Lemma quiet_bind {A B} (c : M A) (k : A -> M B) :
  quiet c -> (forall a, quiet (k a)) -> quiet (bind c k).
Proof.
  intros Hc Hk st. unfold bind. destruct (Hc st) as (a & tr & ->).
  destruct (Hk a {| all_propositions := all_propositions st; trace := trace st ++ tr |})
    as (b & tr' & ->).
  exists b, (tr ++ tr'). simpl. now rewrite app_assoc.
Qed.


Lemma quiet_get_soup {S} (answer : text + S) u : quiet (get_soup answer u).
Proof.
  destruct answer; simpl.
  - apply quiet_bind; [apply quiet_emit | intros _; apply quiet_ret].
  - apply quiet_ret.
Qed.


(** The loop over the matches of one pattern appends one record for each
    match, in the order of the matches. *)
Lemma append_each (f : text -> proposition_data) (g : text -> text) l : forall st,
  exists tr,
    for_each (fun m => bind (append (f m)) (fun _ => print (g m))) l st
    = (Ok tt, {| all_propositions := all_propositions st ++ map f l;
                 trace := trace st ++ tr |}).
Proof.
  induction l as [|m l IH]; intros st.
  - exists []. simpl. unfold ret. rewrite !app_nil_r. now destruct st.
  - simpl. unfold bind at 1. unfold bind at 1. simpl.
    match goal with
    | |- context [for_each _ l ?s] => destruct (IH s) as [tr ->]
    end.
    simpl. exists (Print (g m) :: tr). rewrite <- !app_assoc. reflexivity.
Qed.

Lemma match_patterns cit t u d pats : forall st,
  exists tr,
    for_each (fun entry : text * pattern =>
      let (pattern_name, regex) := entry in
      for_each (fun m =>
        bind (append (make_proposition cit t u pattern_name m))
             (fun _ => print (str "      > Match found for: '" ++ pattern_name ++ str "'")))
        (finditer regex d)) pats st
    = (Ok tt, {| all_propositions :=
                   all_propositions st ++ map (record_of cit t u) (matcher pats d);
                 trace := trace st ++ tr |}).
Proof.
  induction pats as [|[name regex] pats IH]; intros st.
  - exists []. simpl. unfold ret. rewrite !app_nil_r. now destruct st.
  - cbn [for_each]. unfold bind at 1.
    destruct (append_each (make_proposition cit t u name)
                (fun _ => str "      > Match found for: '" ++ name ++ str "'")
                (finditer regex d) st) as [tr ->].
    match goal with
    | |- context [for_each _ pats ?s] => destruct (IH s) as [tr' ->]
    end.
    exists (tr ++ tr'). simpl. rewrite <- !app_assoc. f_equal. f_equal. f_equal.
    unfold matcher. cbn [flat_map fst snd]. rewrite map_app, map_map. reflexivity.
Qed.

Lemma search_from_complete p s :
  match_here p s <> None -> forall pre pos, search_from p pos (pre ++ s) <> None.
Proof.
  intros H. induction pre as [|c pre IH]; intros pos; rewrite search_from_eq.
  - simpl. destruct (match_here p s); [discriminate | contradiction].
  - destruct (match_here p ((c :: pre) ++ s)); [discriminate|]. apply IH.
Qed.

(** Where [r'\.pdf$'] is found. *)
Lemma pdf_search h : search pdf_re h <> None <-> ends_with_pdf h.
Proof.
  split.
  - destruct (search pdf_re h) as [c|] eqn:E; [intros _ | contradiction].
    apply search_sound in E. destruct E as (pre & rest & -> & HL).
    cbn [pdf_re ignorecase body lang] in HL.
    destruct HL as (m1 & m2 & -> & H1 & -> & H2).
    apply CitationFacts.lang_lits_exact in H1. subst m1. rewrite app_nil_r.
    exists pre. destruct H2 as [->| ->]; [left | right]; now rewrite ?app_nil_r.
  - intros [pre [-> | ->]]; unfold search;
      match goal with
      | |- option_map _ (search_from ?p 0 (?a ++ ?b)) <> None =>
          pose proof (search_from_complete p b) as C;
          destruct (search_from p 0 (a ++ b)) eqn:E; [discriminate|];
          exfalso; apply (C ltac:(vm_compute; discriminate) a 0 E)
      end.
Qed.

End StepFacts.

(** ** The bound on the number of listing pages *)

Module FuelFacts.
Import Spec.

Lemma covers_refl {A} (c : M A) : covers c c.
Proof. intros st r st' H _. exact H. Qed.

Lemma covers_bind {A B} (c c' : M A) (k k' : A -> M B) :
  covers c c' -> (forall a, covers (k a) (k' a)) -> covers (bind c k) (bind c' k').
Proof.
  intros Hc Hk st r st' H Hr. unfold bind in *.
  destruct (c st) as [[a|e|] st1] eqn:E.
  - rewrite (Hc st (Ok a) st1 E) by discriminate. now apply Hk.
  - rewrite (Hc st (Raise e) st1 E) by discriminate. exact H.
  - injection H as <- <-. contradiction.
Qed.

Lemma covers_for_each {A} (f g : A -> M unit) l :
  (forall x, covers (f x) (g x)) -> covers (for_each f l) (for_each g l).
Proof.
  intros H. induction l as [|x l IH]; simpl.
  - apply covers_refl.
  - apply covers_bind; auto.
Qed.

Lemma covers_crawl_pages w fuel : forall year start,
  covers (crawl_pages w fuel year start) (crawl_pages w (S fuel) year start).
Proof.
  induction fuel as [|fuel IH]; intros year start.
  - intros st r st' H Hr. injection H as <- <-. contradiction.
  - cbn [crawl_pages].
    apply covers_bind; [apply covers_refl|]. intros _.
    apply covers_bind; [apply covers_refl|]. intros [[|r rs]|]; try apply covers_refl.
    apply covers_bind; [apply covers_refl|]. intros _. apply IH.
Qed.

Lemma covers_main w fuel : covers (main w fuel) (main w (S fuel)).
Proof.
  unfold main, crawl_all, crawl.
  apply covers_bind; [|intros a; apply covers_refl].
  apply covers_bind; [apply covers_refl|]. intros _.
  apply covers_for_each. intros year.
  apply covers_bind; [apply covers_refl|]. intros _. apply covers_crawl_pages.
Qed.

End FuelFacts.

(** ** Every match holds the phrase *)

Module PhraseFacts.
Import TextFacts ReFacts Spec.

Lemma starts_with_app ic p : forall t b,
  starts_with ic p t = true -> starts_with ic p (t ++ b) = true.
Proof.
  induction p as [|c p IH]; intros t b H; [reflexivity|].
  destruct t as [|x t]; [discriminate|]. simpl in *.
  apply andb_true_iff in H. destruct H as [-> H]. simpl. now apply IH.
Qed.

Lemma contains_starts ic p t : starts_with ic p t = true -> contains ic p t = true.
Proof. intros H. destruct t; simpl in *; now rewrite H. Qed.

Lemma contains_after ic p a : forall t, contains ic p t = true -> contains ic p (a ++ t) = true.
Proof.
  induction a as [|x a IH]; intros t H; [exact H|].
  cbn [app contains]. rewrite (IH t H). apply orb_true_r.
Qed.

Lemma lang_lits_starts ic p : forall m rest,
  lang ic (lits p) m rest -> starts_with ic p m = true.
Proof.
  induction p as [|c p IH]; intros m rest H; [reflexivity|].
  cbn [lits lang] in H. destruct H as (m1 & m2 & -> & (x & -> & Hx) & H2).
  simpl. rewrite Hx. simpl. eapply IH, H2.
Qed.

Lemma lang_phrase_first ic p B m rest :
  lang ic (Cat (lits p) B) m rest -> contains ic p m = true.
Proof.
  cbn [lang]. intros (m1 & m2 & -> & H1 & _).
  apply contains_starts, starts_with_app. eapply lang_lits_starts, H1.
Qed.

Lemma lang_phrase_later ic p A R m rest :
  (forall m' rest', lang ic R m' rest' -> contains ic p m' = true) ->
  lang ic (Cat A R) m rest -> contains ic p m = true.
Proof.
  intros HR. cbn [lang]. intros (m1 & m2 & -> & _ & H2).
  apply contains_after. eapply HR, H2.
Qed.

(** A piece of the text that [finditer] gives is matched where it stands. *)
Lemma finditer_sound p t m :
  List.In m (finditer p t) ->
  exists rest, lang (ignorecase p) (body p) m rest.
Proof.
  unfold finditer, finditer_spans. intros H. apply in_map_iff in H.
  destruct H as ([a e] & <- & H). apply QuestionFacts.finditer_from_sound in H.
  destruct H as (u & w & rest & -> & -> & -> & H). simpl.
  rewrite span_text_mid. apply match_here_sound in H.
  destruct H as (w' & Hw & HL). apply app_inv_tail in Hw. subst w'. eauto.
Qed.

End PhraseFacts.

(** ** The rows and the years the records come from *)

Module YearFacts.
Import TextFacts ReFacts CrawlerFacts Spec.



Section Rows.
Variable w : World.
Variable P : proposition_data -> Prop.
Let Q : event -> Prop := fun _ => True.








End Rows.



End YearFacts.

(** ** The statements about the pipeline *)


(** C1, as the program has it. For every citation [c] that the pattern
    [[YYYY] NZSC N] matches in full, [doc_id] is [c] with the two bracket
    characters taken out and every space turned into an underscore: the year,
    [_NZSC_], the number. Every record of every run carries the [doc_id] made
    from its own citation, and [[2019] NZSC 45] gives [2019_NZSC_45]. *)
Theorem doc_id_of_citation (c : text) :
  match_here citation_re c = Some [] ->
  make_doc_id c = Spec.underscored (Spec.removed ["["; "]"]%char c)
  /\ (exists y n,
        c = "["%char :: y ++ str "] NZSC " ++ n
        /\ length y = 4 /\ Forall (fun d => isdigit d = true) y
        /\ n <> [] /\ Forall (fun d => isdigit d = true) n
        /\ make_doc_id c = y ++ str "_NZSC_" ++ n)
  /\ (forall w fuel,
        Forall (fun p => citation p = c -> doc_id p = make_doc_id c)
               (all_propositions (snd (main w fuel init))))
  /\ make_doc_id (str "[2019] NZSC 45") = str "2019_NZSC_45".
Proof.
  intros H. split; [apply CitationFacts.make_doc_id_spec|]. split; [|split].
  - apply ReFacts.match_here_sound in H. destruct H as (m & Hm & HL).
    rewrite app_nil_r in Hm. subst m.
    apply CitationFacts.citation_shape in HL.
    destruct HL as (y & n & -> & Hy & Hyd & Hn & Hnd).
    exists y, n. repeat split; auto.
    now apply CitationFacts.make_doc_id_citation.
  - intros w fuel. apply RunFacts.main_propositions.
    intros c' t u n m. simpl. now intros ->.
  - reflexivity.
Qed.

Lemma doc_id_of_citation_witness :
  match_here citation_re (str "[2019] NZSC 45") = Some []
  /\ make_doc_id (str "[2019] NZSC 45")
     = Spec.underscored (Spec.removed ["["; "]"]%char (str "[2019] NZSC 45")).
Proof.
  split; [reflexivity|].
  apply (doc_id_of_citation (str "[2019] NZSC 45")). reflexivity.
Defined.

(** C1, as the claim words it, fails: taking the space characters out of
    [[2019] NZSC 45] gives [2019NZSC45], and [doc_id] is [2019_NZSC_45]. *)
Lemma doc_id_keeps_a_mark_for_spaces :
  search citation_re (str "[2019] NZSC 45") = Some (str "[2019] NZSC 45")
  /\ Spec.removed ["["; "]"; " "]%char (str "[2019] NZSC 45") = str "2019NZSC45"
  /\ make_doc_id (str "[2019] NZSC 45")
     <> Spec.removed ["["; "]"; " "]%char (str "[2019] NZSC 45").
Proof.
  split; [reflexivity|]. split; [reflexivity|]. discriminate.
Qed.

(** C3 at a row without any [<h3>]: [result.find('h3')] is [None], the
    call of [.find('a')] on it raises, nothing catches it; the rows after it
    are not processed. *)
Theorem row_without_h3_raises (w : World) (year : nat) (meta : option text)
    (rest : list result_row) (st : state) :
  for_each (process_row w year) ({| h3 := None; meta_data := meta |} :: rest) st
  = (Raise AttributeError, st).
Proof. reflexivity. Qed.



(** The row of that site, run: one record, with the placeholder of 2021 as
    citation and as [doc_id]. *)
Lemma uncited_run :
  all_propositions (snd (main Example.uncited_site 2 init))
  = [ {| doc_id := str "UNKNOWN_CITATION_2021";
         title := str "R v Smith";
         url := str "https://www.courtsofnz.govt.nz/judgment.pdf";
         proposition := str "The leading authority on this point is XYZ.";
         citation := str "UNKNOWN_CITATION_2021";
         pattern_matched := str "The leading authority" |} ].
Proof. vm_compute. reflexivity. Qed.

(** C7. A row that gets as far as the PDF and whose extracted text is
    empty appends nothing, ends normally, and the loop goes on with the rows
    after it. *)
Theorem empty_text_appends_nothing (w : World) (year : nat) (row : result_row)
    (rest : list result_row) (st : state) a meta href anchors pdf_href :
  h3 row = Some (Some a) -> meta_data row = Some meta -> a_href a = Some href ->
  get_details w (urljoin w BASE_URL href) = inr anchors ->
  find_pdf anchors = Some pdf_href ->
  Spec.pdf_text w (urljoin w BASE_URL pdf_href) = [] ->
  exists st',
    process_row w year row st = (Ok tt, st')
    /\ all_propositions st' = all_propositions st
    /\ for_each (process_row w year) (row :: rest) st
       = for_each (process_row w year) rest st'.
Proof.
  intros H1 H2 H3 H4 H5 H6.
  assert (R : exists st', process_row w year row st = (Ok tt, st')
                          /\ all_propositions st' = all_propositions st).
  { unfold process_row. rewrite H1, H2, H3. unfold bind at 1. simpl.
    rewrite H4. unfold bind at 1. simpl. rewrite H5. unfold bind at 1. simpl.
    unfold bind.
    match goal with
    | |- context [extract_text_from_pdf ?w ?u ?s] =>
        destruct (RunFacts.extract_text_result w u s) as [tr ->]
    end.
    rewrite H6. simpl. eexists. split; reflexivity. }
  destruct R as (st' & R & E). exists st'. repeat split; auto.
  simpl. unfold bind at 1. now rewrite R.
Qed.

Lemma empty_text_appends_nothing_witness :
  let w := Example.one_case Example.smith None in
  exists st',
    process_row w 2021 Example.smith init = (Ok tt, st')
    /\ all_propositions st' = all_propositions init
    /\ for_each (process_row w 2021) [Example.smith; Example.smith] init
       = for_each (process_row w 2021) [Example.smith] st'.
Proof.
  exact (empty_text_appends_nothing (Example.one_case Example.smith None) 2021
           Example.smith [Example.smith] init
           {| a_text := str "R v Smith"; a_href := Some (str "cases/r-v-smith") |}
           (str "Date: 1 March 2021 Citation: [2021] NZSC 12")
           (str "cases/r-v-smith")
           [ {| a_text := str "Home"; a_href := Some (str "index.html") |};
             {| a_text := str "Judgment"; a_href := Some (str "judgment.pdf") |} ]
           (str "judgment.pdf")
           eq_refl eq_refl eq_refl eq_refl eq_refl eq_refl).
Defined.

(** C8, as the program has it. When the crawl is over, the crawl itself
    has written no file. If no record was appended, the run prints that the
    outputs are empty and ends normally, still without a file. Otherwise it
    builds one table, whose columns are the six keys in the order of the
    dict and whose rows are the records in the order they were appended, and
    calls [to_csv] and then [to_excel] on it, both without the index column.
    Nothing catches what the two calls raise: when [to_csv] raises, the run
    ends with the exception and no write has been completed; when [to_excel]
    raises, it ends with the exception and with the CSV file alone; when
    neither raises, both files are written and the run ends normally. *)
Theorem export_after_crawl (w : World) (fuel : nat) (st : state) :
  crawl_all w fuel init = (Ok tt, st) ->
  let done := Print (nl :: str "--- Crawling complete. Saving data... ---") in
  let csv_path := str "NZSC_Propositions_Export.csv" in
  let xlsx_path := str "NZSC_Propositions_Export.xlsx" in
  let df :=
    {| columns := map str ["doc_id"; "title"; "url"; "proposition"; "citation";
                           "pattern_matched"]%string;
       index := seq 0 (length (all_propositions st));
       rows := map (fun p => [doc_id p; title p; url p; proposition p; citation p;
                              pattern_matched p])
                   (all_propositions st) |} in
  let csv := ToCsv csv_path false (str "utf-8-sig") df in
  let xlsx := ToExcel xlsx_path false df in
  let ends_in tr := {| all_propositions := all_propositions st; trace := tr |} in
  Spec.files_written st = []
  /\ match all_propositions st with
     | [] =>
         main w fuel init
         = (Ok tt,
            ends_in ((trace st ++ [done])
                     ++ [Print (str "No propositions were extracted. The output files will be empty.")]))
         /\ Spec.files_written (snd (main w fuel init)) = []
     | _ :: _ =>
         match to_csv w csv_path df, to_excel w xlsx_path df with
         | Some e, _ =>
             main w fuel init = (Raise (OutputError e), ends_in (trace st ++ [done]))
             /\ Spec.files_written (snd (main w fuel init)) = []
         | None, Some e =>
             main w fuel init
             = (Raise (OutputError e), ends_in ((trace st ++ [done]) ++ [csv]))
             /\ Spec.files_written (snd (main w fuel init)) = [csv]
         | None, None =>
             main w fuel init
             = (Ok tt,
                ends_in ((((((trace st ++ [done]) ++ [csv]) ++ [xlsx])
                           ++ [Print (nl :: str "Successfully saved "
                                      ++ str_of_nat (length (all_propositions st))
                                      ++ str " propositions to:")])
                           ++ [Print (str "- NZSC_Propositions_Export.csv")])
                           ++ [Print (str "- NZSC_Propositions_Export.xlsx")]))
             /\ Spec.files_written (snd (main w fuel init)) = [csv; xlsx]
         end
     end.
Proof.
  intros H. cbv zeta.
  assert (F : Spec.files_written st = []).
  { pose proof (RunFacts.crawl_all_no_file w fuel) as F. now rewrite H in F. }
  split; [exact F|].
  assert (E : main w fuel init
              = export w {| all_propositions := all_propositions st;
                            trace := trace st
                                     ++ [Print (nl :: str "--- Crawling complete. Saving data... ---")] |}).
  { unfold main, bind. rewrite H. reflexivity. }
  rewrite E. unfold export. cbn [all_propositions].
  unfold Spec.files_written in *.
  assert (both : forall (x v : result unit * state) l,
            x = v -> filter Spec.is_file (trace (snd v)) = l ->
            x = v /\ filter Spec.is_file (trace (snd x)) = l).
  { intros x v l -> Hl. auto. }
  destruct (all_propositions st) as [|p ps] eqn:P.
  - apply both; [reflexivity|]. cbn [snd trace]. now rewrite !filter_app, F.
  - unfold bind at 1. unfold df_to_csv, make_DataFrame, keys, row_of.
    destruct (to_csv w _ _) as [e|].
    + apply both; [reflexivity|]. cbn [snd trace]. now rewrite !filter_app, F.
    + cbn [emit]. unfold bind at 1. unfold df_to_excel.
      destruct (to_excel w _ _) as [e|].
      * apply both; [reflexivity|]. cbn [snd trace]. now rewrite !filter_app, F.
      * apply both; [reflexivity|]. cbn [snd trace]. now rewrite !filter_app, F.
Qed.

Lemma smith_site_crawl :
  crawl_all Example.smith_site 2 init = (Ok tt, Example.smith_crawl).
Proof. vm_compute. reflexivity. Qed.

Lemma smith_crawl_records :
  all_propositions Example.smith_crawl
  = [ {| doc_id := str "2021_NZSC_12";
         title := str "R v Smith";
         url := str "https://www.courtsofnz.govt.nz/judgment.pdf";
         proposition := str "The leading authority on this point is XYZ.";
         citation := str "[2021] NZSC 12";
         pattern_matched := str "The leading authority" |} ].
Proof. vm_compute. reflexivity. Qed.

Lemma export_after_crawl_witness :
  let df :=
    {| columns := map str ["doc_id"; "title"; "url"; "proposition"; "citation";
                           "pattern_matched"]%string;
       index := [0];
       rows := [[str "2021_NZSC_12"; str "R v Smith";
                 str "https://www.courtsofnz.govt.nz/judgment.pdf";
                 str "The leading authority on this point is XYZ.";
                 str "[2021] NZSC 12"; str "The leading authority"]] |} in
  Spec.files_written (snd (main Example.smith_site 2 init))
  = [ToCsv (str "NZSC_Propositions_Export.csv") false (str "utf-8-sig") df;
     ToExcel (str "NZSC_Propositions_Export.xlsx") false df].
Proof.
  pose proof (export_after_crawl Example.smith_site 2 Example.smith_crawl
                smith_site_crawl) as H.
  cbv zeta in H. destruct H as [_ H]. rewrite smith_crawl_records in H.
  exact (proj2 H).
Defined.

(** C8, as the claim words it, fails: on a site whose one matching line
    holds a form feed, with [to_excel] writing through openpyxl, the records
    are not empty, [to_csv] writes its file, [to_excel] raises, and the run
    ends with that exception and without the workbook. *)
Lemma to_excel_raises_after_the_csv :
  let w := Example.form_feed_site in
  crawl_all w 2 init = (Ok tt, Example.form_feed_crawl)
  /\ length (all_propositions Example.form_feed_crawl) = 1
  /\ fst (main w 2 init) = Raise (OutputError (str "IllegalCharacterError"))
  /\ map Spec.is_csv (Spec.files_written (snd (main w 2 init))) = [true].
Proof.
  cbv zeta. split; [|split; [|split]]; vm_compute; reflexivity.
Qed.

(** C9, as the program has it. When no page raises, the extracted text is
    the page texts that are not empty, in the order of the pages, each one
    followed by a newline; pages without text add nothing, and nothing is
    printed. *)
Theorem extract_text_pages (w : World) (u : text) (texts : list (option text))
    (st : state) :
  get_pdf w u = inr (map inr texts) ->
  extract_text_from_pdf w u st
  = (Ok (concat (map (fun t => t ++ [nl]) (Spec.page_texts texts))), st).
Proof.
  intros H. unfold extract_text_from_pdf. rewrite H, RunFacts.pages_text_acc.
  reflexivity.
Qed.

Lemma extract_text_pages_witness :
  let w := Example.one_case Example.smith (Some (str "abc")) in
  extract_text_from_pdf w (BASE_URL ++ str "judgment.pdf") init
  = (Ok (str "abc" ++ [nl]), init).
Proof.
  exact (extract_text_pages (Example.one_case Example.smith (Some (str "abc")))
           (BASE_URL ++ str "judgment.pdf") [Some (str "abc")] init eq_refl).
Defined.

(** C9, as the claim words it, fails: a PDF of one page whose text is
    [abc] gives [abc] and a newline, which is neither the page text nor the
    page texts with a newline between them. *)
Lemma single_page_text_ends_with_newline :
  let w := Example.one_case Example.smith (Some (str "abc")) in
  let r := fst (extract_text_from_pdf w (BASE_URL ++ str "judgment.pdf") init) in
  r = Ok (str "abc" ++ [nl])
  /\ r <> Ok (str "abc")
  /\ r <> Ok (Spec.join [nl] (Spec.page_texts [Some (str "abc")])).
Proof.
  cbv zeta. split; [reflexivity|]. split; vm_compute; discriminate.
Qed.

(** C10. In every run, whatever the site answers and however long the run
    is followed, no record has a bracket character or a space in its
    [doc_id]. *)
Theorem doc_id_is_plain (w : World) (fuel : nat) :
  Forall (fun p => Forall Spec.plain (doc_id p))
         (all_propositions (snd (main w fuel init))).
Proof.
  apply RunFacts.main_propositions.
  intros c t u n m. apply CrawlerFacts.make_doc_id_plain.
Qed.

(** The scenario of one result row, [R v Smith], from the listing to the
    record. *)
Lemma smith_run :
  all_propositions (snd (main Example.smith_site 2 init))
  = [ {| doc_id := str "2021_NZSC_12";
         title := str "R v Smith";
         url := str "https://www.courtsofnz.govt.nz/judgment.pdf";
         proposition := str "The leading authority on this point is XYZ.";
         citation := str "[2021] NZSC 12";
         pattern_matched := str "The leading authority" |} ]
  /\ fst (main Example.smith_site 2 init) = Ok tt.
Proof. split; vm_compute; reflexivity. Qed.

(** ** The statements about the patterns *)

(** X1 (the property of claim C4). A document that is one sentence on one line, ending in a
    sentence-terminal mark and holding the phrase in any letter case, gives
    exactly one match of the pattern named [The leading case]: the whole
    line, and the proposition is the line stripped. The same holds when the
    line is followed by the newline that [extract_text_from_pdf] puts after
    a page. *)
Theorem leading_case_one_sentence (t : text) :
  forallb Spec.not_nl t = true ->
  Spec.ends_with_terminal t = true ->
  Spec.contains true (str "The leading case") t = true ->
  finditer (Pattern true (line_with "The leading case")) t = [t]
  /\ Spec.propositions_of (str "The leading case") t = [strip t]
  /\ Spec.propositions_of (str "The leading case") (t ++ [nl]) = [strip t].
Proof.
  intros Hl _ Hc.
  destruct (LineFacts.line_with_one_line "The leading case" t) as [H1 H2];
    try assumption; try reflexivity; try discriminate.
  rewrite !LineFacts.propositions_of_leading_case, H1, H2. auto.
Qed.

Lemma leading_case_one_sentence_witness :
  Spec.propositions_of (str "The leading case")
    (str "  In our view the leading case is Smith v Jones.")
  = [strip (str "  In our view the leading case is Smith v Jones.")].
Proof.
  refine (proj1 (proj2 (leading_case_one_sentence
                          (str "  In our view the leading case is Smith v Jones.")
                          _ _ _)));
    vm_compute; reflexivity.
Defined.

(** X2 (the property of claim C2). The pattern named [The applicable test is] has the group [(i)] in
    front, not the flag: it wants a lower-case [i] before the phrase on the
    line and the phrase in the letter case of the pattern. On a text with
    the phrase in capitals it finds nothing, with or without an [i] before
    it. Each of the other five patterns has the flag: its matches are at the
    same places whatever the letter case of the text, and it matches its
    phrase, followed by a period, in every letter case. *)
Theorem applicable_test_is_case_sensitive :
  (forall p, List.In (str "The applicable test is", p) PATTERNS ->
     ignorecase p = false
     /\ finditer p (str "THE APPLICABLE TEST IS") = []
     /\ finditer p (str "it is said: THE APPLICABLE TEST IS strict.") = []
     /\ finditer p (str "it is said: The applicable test is strict.")
        = [str "it is said: The applicable test is strict."])
  /\ (forall name p, List.In (name, p) PATTERNS -> name <> str "The applicable test is" ->
        ignorecase p = true
        /\ (forall t t', Spec.same_letters t t' ->
              finditer_spans p t = finditer_spans p t')
        /\ (forall v, Spec.same_letters name v ->
              finditer p (v ++ str ".") = [v ++ str "."])).
Proof.
  split.
  - intros p Hin. apply CaseFacts.in_PATTERNS in Hin.
    destruct Hin as [[Hn Hp]|[[Hn Hp]|[[Hn Hp]|[[Hn Hp]|[[Hn Hp]|[Hn Hp]]]]]];
      try (vm_compute in Hn; discriminate Hn).
    subst p. repeat split; vm_compute; reflexivity.
  - intros name p Hin Hname. apply CaseFacts.in_PATTERNS in Hin.
    destruct Hin as [[Hn Hp]|[[Hn Hp]|[[Hn Hp]|[[Hn Hp]|[[Hn Hp]|[Hn Hp]]]]]];
      try contradiction; subst name p;
      (split; [reflexivity|]; split;
       [ intros t t' Ht; now apply CaseFacts.finditer_from_same
       | intros v Hv;
         match goal with
         | |- finditer ?q _ = _ =>
             match type of Hv with
             | Spec.same_letters ?n _ =>
                 apply (CaseFacts.whole_match_any_case q (n ++ str ".") (v ++ str ".")
                          (length (n ++ str ".")));
                 [ reflexivity | vm_compute; reflexivity | reflexivity
                 | now apply CaseFacts.same_letters_app ]
             end
         end ]).
Qed.

(** X3 (the property of claim C5, as the program has it). Take a terminal mark of the text that has
    white space or the end of the text behind it, such as the period right
    after [The question is whether]. A match of the first pattern that starts
    at or before the mark ends at or before it: the lazy run stops at the
    first such mark and never enters the sentence after it. *)
Theorem question_match_stops_at_sentence_end (x post : text) (d : ascii) (a e : nat) :
  Spec.terminal d = true ->
  Spec.followed_by_space post = true ->
  List.In (a, e) (finditer_spans (Pattern true question_re) (x ++ d :: post)) ->
  a <= length x ->
  e <= length x + 1.
Proof.
  intros Hd Hp Hin Ha. unfold finditer_spans in Hin.
  apply QuestionFacts.finditer_from_sound in Hin.
  destruct Hin as (u & w & rest & Ht & -> & -> & Hm). simpl in Ha |- *.
  apply QuestionFacts.question_match in Hm. destruct Hm as (g & z & Hs & Hg & Hz).
  symmetry in Ht. rewrite Hs in Ht.
  destruct (QuestionFacts.split_prefix u (g ++ z) x (d :: post) Ht Ha) as (y & Hx & Hy).
  destruct (QuestionFacts.split_before_terminal g z y d post Hy Hg Hd) as (z1 & Hy1 & Hz1).
  rewrite Hz1 in Hz.
  assert (Hstop : Spec.sentence_stop (d :: post) = Some post).
  { simpl. now rewrite Hd, Hp. }
  pose proof (QuestionFacts.star_lazy_stops z1 (d :: post) post rest Hstop Hz) as L.
  assert (Hlen : length (w ++ rest) = length (g ++ z)) by now rewrite Hs.
  rewrite Hz1, !length_app in Hlen. simpl in Hlen.
  rewrite Hx, Hy1, !length_app. lia.
Qed.

Lemma question_match_stops_at_sentence_end_witness :
  24 <= length (str "The question is whether") + 1.
Proof.
  refine (question_match_stops_at_sentence_end
            (str "The question is whether") (str " It is not.") "." 0 24 _ _ _ _).
  - reflexivity.
  - reflexivity.
  - vm_compute. left. reflexivity.
  - vm_compute. lia.
Defined.

(** The property of claim C5, as the claim words it, fails when no white space follows the
    period: the match runs on to the next terminal mark that has white space
    behind it, here to the end of the sentence after the period. *)
Lemma question_match_runs_past_a_bare_period :
  finditer (Pattern true question_re)
    (str "The question is whether.Next sentence here. And more.")
  = [str "The question is whether.Next sentence here."]
  /\ finditer_spans (Pattern true question_re)
       (str "The question is whether.Next sentence here. And more.")
     = [(0, 43)]
  /\ nth_error (str "The question is whether.Next sentence here. And more.") 23
     = Some "."%char.
Proof. repeat split; vm_compute; reflexivity. Qed.

(** ** Further properties of the program *)

(** The [doc_id] of a [doc_id] is itself: the chain of [replace] calls
    leaves nothing that it would change again. *)
Theorem make_doc_id_idempotent (cit : text) :
  make_doc_id (make_doc_id cit) = make_doc_id cit.
Proof.
  apply CrawlerFacts.make_doc_id_id, CrawlerFacts.make_doc_id_plain.
Qed.

(** When a page of the PDF raises, the text of the pages before it is
    dropped: the result is the empty text, one line is printed with the URL
    and the message, and nothing is raised. *)
Theorem extract_text_page_failure (w : World) (u : text)
    (texts : list (option text)) (e : text) (after : list (text + option text))
    (st : state) :
  get_pdf w u = inr (map inr texts ++ inl e :: after) ->
  extract_text_from_pdf w u st
  = (Ok [],
     {| all_propositions := all_propositions st;
        trace := trace st ++ [Print (str "Error processing PDF " ++ u ++ str ": " ++ e)] |}).
Proof.
  intros H. unfold extract_text_from_pdf. rewrite H.
  assert (E : forall acc, pages_text (map inr texts ++ inl e :: after) acc = inl e).
  { clear H. induction texts as [|t texts IH]; intros acc; simpl; [reflexivity|].
    destruct t as [[|c x]|]; apply IH. }
  rewrite E. reflexivity.
Qed.

Lemma extract_text_page_failure_witness :
  extract_text_from_pdf Example.broken_pdf (str "a.pdf") init
  = (Ok [],
     {| all_propositions := [];
        trace := [Print (str "Error processing PDF " ++ str "a.pdf" ++ str ": "
                         ++ str "bad page")] |}).
Proof.
  exact (extract_text_page_failure Example.broken_pdf (str "a.pdf")
           [Some (str "page one")] (str "bad page") [] init eq_refl).
Defined.

(** [extract_text_from_pdf] never raises and never touches the records;
    the text it returns is empty or ends with a newline. *)
Theorem extract_text_total (w : World) (u : text) (st : state) :
  exists t tr,
    extract_text_from_pdf w u st
    = (Ok t, {| all_propositions := all_propositions st; trace := trace st ++ tr |})
    /\ (t = [] \/ exists s, t = s ++ [nl]).
Proof.
  destruct (RunFacts.extract_text_result w u st) as [tr H].
  exists (Spec.pdf_text w u), tr. split; [exact H|].
  unfold Spec.pdf_text. destruct (get_pdf w u) as [e|pages]; [now left|].
  assert (G : forall acc, (acc = [] \/ exists s, acc = s ++ [nl]) ->
              match pages_text pages acc with
              | inr t => t = [] \/ exists s, t = s ++ [nl]
              | inl _ => True
              end).
  { induction pages as [|p pages IH]; intros acc Hacc; simpl; [exact Hacc|].
    destruct p as [e|[[|c x]|]]; [exact I | now apply IH | | now apply IH].
    apply IH. right. exists (acc ++ c :: x). now rewrite <- app_assoc. }
  specialize (G [] (or_introl eq_refl)).
  destruct (pages_text pages []); [now left | exact G].
Qed.

(** A row whose [<h3>] has no [<a>], or that has an [<h3>] and no metadata
    paragraph, is passed over: nothing is printed, fetched or appended. *)
Theorem row_without_link_or_metadata_skipped (w : World) (year : nat)
    (row : result_row) (st : state) :
  h3 row = Some None \/ (h3 row <> None /\ meta_data row = None) ->
  process_row w year row st = (Ok tt, st).
Proof.
  unfold process_row. intros [H|[H1 H2]].
  - rewrite H. reflexivity.
  - destruct (h3 row) as [[a|]|]; [|reflexivity|contradiction].
    rewrite H2. reflexivity.
Qed.

Lemma row_without_link_or_metadata_skipped_witness :
  process_row Example.empty_site 2021
    {| h3 := Some None; meta_data := Some (str "[2021] NZSC 12") |} init
  = (Ok tt, init).
Proof.
  apply row_without_link_or_metadata_skipped. left. reflexivity.
Defined.

(** A row with a heading link that has no [href] and with a metadata
    paragraph raises [KeyError] at [case_title_tag['href']]: the guard before
    it only tests that the tags are there. The rows after it are not
    processed. *)
Theorem row_without_href_raises (w : World) (year : nat) (row : result_row)
    (rest : list result_row) (st : state) (a : a_tag) (meta : text) :
  h3 row = Some (Some a) -> a_href a = None -> meta_data row = Some meta ->
  for_each (process_row w year) (row :: rest) st = (Raise KeyError, st).
Proof.
  intros H1 H2 H3. simpl. unfold bind, process_row. rewrite H1, H3, H2. reflexivity.
Qed.

Lemma row_without_href_raises_witness :
  for_each (process_row Example.empty_site 2021) [Example.no_href_row; Example.smith] init
  = (Raise KeyError, init).
Proof.
  exact (row_without_href_raises Example.empty_site 2021 Example.no_href_row
           [Example.smith] init
           {| a_text := str "R v Smith"; a_href := None |} (str "[2021] NZSC 12")
           eq_refl eq_refl eq_refl).
Defined.

(** The files are written only after the whole crawl: when the crawl
    raises, or is cut off, the run ends there, no file has been written and
    the records gathered so far are in no file. *)
Theorem no_file_when_crawl_raises (w : World) (fuel : nat) :
  fst (crawl_all w fuel init) <> Ok tt ->
  main w fuel init = crawl_all w fuel init
  /\ Spec.files_written (snd (main w fuel init)) = [].
Proof.
  intros H. pose proof (RunFacts.crawl_all_no_file w fuel) as F.
  unfold main, bind in *.
  destruct (crawl_all w fuel init) as [[[]|e|] st] eqn:E; simpl in *; auto.
  exfalso. now apply H.
Qed.

Lemma no_file_when_crawl_raises_witness :
  let w := Example.one_case Example.bare_row None in
  main w 1 init = crawl_all w 1 init
  /\ Spec.files_written (snd (main w 1 init)) = [].
Proof.
  cbv zeta. apply no_file_when_crawl_raises. vm_compute. discriminate.
Defined.



(** The two loops over the patterns and their matches end normally and
    append, after the records that were there, one record for each
    proposition of the matcher, in the order of [PATTERNS] and, for one
    pattern, in the order of the matches; all of them carry the citation, the
    title and the URL of the case. *)
Theorem match_document_appends (cit case_title pdf_url document_text : text)
    (st : state) :
  fst (match_document cit case_title pdf_url document_text st) = Ok tt
  /\ all_propositions (snd (match_document cit case_title pdf_url document_text st))
     = all_propositions st
       ++ map (Spec.record_of cit case_title pdf_url) (matcher PATTERNS document_text).
Proof.
  unfold match_document.
  destruct (StepFacts.match_patterns cit case_title pdf_url document_text PATTERNS st)
    as [tr ->].
  split; reflexivity.
Qed.

(** [find_pdf] gives the target of the first link, in the order of the
    page, whose [href] ends with [.pdf] (or with [.pdf] and a newline, which
    [$] lets through); links without [href] and links to anything else are
    passed over, and [None] means that the page has no such link. The letter
    case counts. *)
Theorem find_pdf_first (anchors : list a_tag) :
  match find_pdf anchors with
  | Some h =>
      exists before a after,
        anchors = before ++ a :: after /\ a_href a = Some h
        /\ Spec.ends_with_pdf h /\ Forall Spec.not_pdf_link before
  | None => Forall Spec.not_pdf_link anchors
  end.
Proof.
  induction anchors as [|a anchors IH]; simpl; [constructor|].
  assert (skip : Spec.not_pdf_link a ->
            match find_pdf anchors with
            | Some h =>
                exists before a0 after,
                  a :: anchors = before ++ a0 :: after /\ a_href a0 = Some h
                  /\ Spec.ends_with_pdf h /\ Forall Spec.not_pdf_link before
            | None => Forall Spec.not_pdf_link (a :: anchors)
            end).
  { intros Ha. destruct (find_pdf anchors) as [h|].
    - destruct IH as (before & a0 & after & -> & H1 & H2 & H3).
      exists (a :: before), a0, after. repeat split; auto.
    - constructor; auto. }
  destruct (a_href a) as [h|] eqn:E.
  - destruct (search pdf_re h) as [c|] eqn:S.
    + exists [], a, anchors. repeat split; auto.
      apply StepFacts.pdf_search. now rewrite S.
    + apply skip. intros h' Hh' Hp. rewrite E in Hh'. injection Hh' as <-.
      apply StepFacts.pdf_search in Hp. contradiction.
  - apply skip. intros h' Hh'. rewrite E in Hh'. discriminate.
Qed.

(** Upper-case [.PDF] is not a PDF link for [find_pdf], and a link with a
    query behind [.pdf] is not one either. *)
Lemma find_pdf_examples :
  find_pdf [ {| a_text := []; a_href := None |};
             {| a_text := []; a_href := Some (str "a.PDF") |};
             {| a_text := []; a_href := Some (str "b.pdf?download=1") |};
             {| a_text := []; a_href := Some (str "c.pdf") |};
             {| a_text := []; a_href := Some (str "d.pdf") |} ]
  = Some (str "c.pdf").
Proof. reflexivity. Qed.

(** The matches of each of the four line patterns that carry the flag are
    the lines of the text that hold the phrase in any letter case, whole and
    in the order of the text; a line is what stands between two newlines. *)
Theorem line_patterns_find_lines (name : text) (p : pattern) (t : text) :
  List.In (name, p) PATTERNS ->
  name <> str "The question is whether" ->
  name <> str "The applicable test is" ->
  finditer p t = filter (Spec.contains true name) (Spec.lines t).
Proof.
  intros Hin H1 H5. apply CaseFacts.in_PATTERNS in Hin.
  destruct Hin as [[Hn Hp]|[[Hn Hp]|[[Hn Hp]|[[Hn Hp]|[[Hn Hp]|[Hn Hp]]]]]];
    try contradiction; subst name p;
    apply LineFacts.finditer_line_with; (discriminate || reflexivity).
Qed.

Lemma line_patterns_find_lines_witness :
  finditer (Pattern true (line_with "The leading authority"))
    (str "First line." ++ nl :: str "See THE LEADING AUTHORITY, Smith." ++ [nl; nl]
     ++ str "the leading authority is old")
  = filter (Spec.contains true (str "The leading authority"))
      (Spec.lines
         (str "First line." ++ nl :: str "See THE LEADING AUTHORITY, Smith." ++ [nl; nl]
          ++ str "the leading authority is old")).
Proof.
  refine (line_patterns_find_lines (str "The leading authority") _ _ _ _ _).
  - right. right. left. reflexivity.
  - vm_compute. discriminate.
  - vm_compute. discriminate.
Defined.

(** The run on that text, evaluated: two propositions, the two lines that
    hold the phrase. *)
Lemma line_patterns_find_lines_example :
  finditer (Pattern true (line_with "The leading authority"))
    (str "First line." ++ nl :: str "See THE LEADING AUTHORITY, Smith." ++ [nl; nl]
     ++ str "the leading authority is old")
  = [str "See THE LEADING AUTHORITY, Smith."; str "the leading authority is old"].
Proof. vm_compute. reflexivity. Qed.

(** The bound on the number of listing pages plays no role in a run that
    ends: a run that ends, normally or by an exception, within some bound
    ends in the same way and in the same state within every larger bound. *)
Theorem larger_bound_same_run (w : World) (fuel fuel' : nat) (r : result unit)
    (st : state) :
  main w fuel init = (r, st) -> r <> OutOfFuel -> fuel <= fuel' ->
  main w fuel' init = (r, st).
Proof.
  intros H Hr Hle. induction Hle as [|fuel' Hle IH]; [exact H|].
  now apply (FuelFacts.covers_main w fuel' init r st).
Qed.

Lemma larger_bound_same_run_witness :
  main Example.smith_site 5 init
  = (Ok tt, snd (main Example.smith_site 2 init)).
Proof.
  refine (larger_bound_same_run Example.smith_site 2 5 (Ok tt)
            (snd (main Example.smith_site 2 init)) _ _ _).
  - vm_compute. reflexivity.
  - discriminate.
  - repeat constructor.
Defined.

(** A row that gets as far as the PDF and whose extracted text is not
    empty ends normally and appends, after the records that were there, the
    records of the matcher on that text, with the citation found in the
    metadata (or the placeholder), the title of the heading link and the URL
    of the PDF. *)
Theorem row_appends_matches (w : World) (year : nat) (row : result_row) (st : state)
    a meta href anchors pdf_href c d :
  h3 row = Some (Some a) -> meta_data row = Some meta -> a_href a = Some href ->
  get_details w (urljoin w BASE_URL href) = inr anchors ->
  find_pdf anchors = Some pdf_href ->
  Spec.pdf_text w (urljoin w BASE_URL pdf_href) = c :: d ->
  fst (process_row w year row st) = Ok tt
  /\ all_propositions (snd (process_row w year row st))
     = all_propositions st
       ++ map (Spec.record_of (find_citation year meta) (a_text a)
                 (urljoin w BASE_URL pdf_href))
              (matcher PATTERNS (c :: d)).
Proof.
  intros H1 H2 H3 H4 H5 H6.
  remember (map (Spec.record_of (find_citation year meta) (a_text a)
                   (urljoin w BASE_URL pdf_href))
                (matcher PATTERNS (c :: d))) as recs eqn:R.
  assert (E : exists tr0,
            process_row w year row st
            = (Ok tt, {| all_propositions := all_propositions st ++ recs;
                         trace := tr0 |})).
  { unfold process_row. rewrite H1, H2, H3. unfold bind at 1. simpl.
    rewrite H4. unfold bind at 1. simpl. rewrite H5. unfold bind at 1. simpl.
    unfold bind at 1.
    match goal with
    | |- context [extract_text_from_pdf ?w ?u ?s] =>
        destruct (RunFacts.extract_text_result w u s) as [tr ->]
    end.
    rewrite H6. unfold bind. unfold match_document.
    match goal with
    | |- context [for_each ?f PATTERNS ?s] =>
        destruct (StepFacts.match_patterns (find_citation year meta) (a_text a)
                    (urljoin w BASE_URL pdf_href) (c :: d) PATTERNS s) as [tr' ->]
    end.
    rewrite <- R. eexists. reflexivity. }
  destruct E as [tr0 ->]. split; reflexivity.
Qed.

Lemma row_appends_matches_witness :
  fst (process_row Example.smith_site 2021 Example.smith init) = Ok tt
  /\ all_propositions (snd (process_row Example.smith_site 2021 Example.smith init))
     = all_propositions init
       ++ map (Spec.record_of
                 (find_citation 2021 (str "Date: 1 March 2021 Citation: [2021] NZSC 12"))
                 (str "R v Smith")
                 (urljoin Example.smith_site BASE_URL (str "judgment.pdf")))
              (matcher PATTERNS (str "The leading authority on this point is XYZ." ++ [nl])).
Proof.
  exact (row_appends_matches Example.smith_site 2021 Example.smith init
           {| a_text := str "R v Smith"; a_href := Some (str "cases/r-v-smith") |}
           (str "Date: 1 March 2021 Citation: [2021] NZSC 12")
           (str "cases/r-v-smith")
           [ {| a_text := str "Home"; a_href := Some (str "index.html") |};
             {| a_text := str "Judgment"; a_href := Some (str "judgment.pdf") |} ]
           (str "judgment.pdf") "T"%char
           (str "he leading authority on this point is XYZ." ++ [nl])
           eq_refl eq_refl eq_refl eq_refl eq_refl eq_refl).
Defined.

(** Every match of every pattern holds the phrase the pattern is named
    after: in any letter case for the five patterns with the flag, in the
    letter case of the pattern for [The applicable test is]. *)
Theorem every_match_holds_its_phrase (name : text) (p : pattern) (t m : text) :
  List.In (name, p) PATTERNS -> List.In m (finditer p t) ->
  Spec.contains (ignorecase p) name m = true.
Proof.
  intros Hin Hm. apply PhraseFacts.finditer_sound in Hm. destruct Hm as [rest HL].
  apply CaseFacts.in_PATTERNS in Hin.
  destruct Hin as [[Hn Hp]|[[Hn Hp]|[[Hn Hp]|[[Hn Hp]|[[Hn Hp]|[Hn Hp]]]]]];
    subst name p; cbn [ignorecase body] in *;
    unfold question_re, line_with, cats in HL; cbn [fold_right] in HL;
    repeat (first [ eapply PhraseFacts.lang_phrase_first; exact HL
                  | revert HL; apply PhraseFacts.lang_phrase_later;
                    clear; intros m rest HL ]).
Qed.

Lemma every_match_holds_its_phrase_witness :
  Spec.contains false (str "The applicable test is")
    (str "it is said: The applicable test is strict.") = true.
Proof.
  refine (every_match_holds_its_phrase (str "The applicable test is")
            (Pattern false (Cat (Grp true (Lit "i")) (line_with "The applicable test is")))
            (str "As it is said: The applicable test is strict.") _ _ _).
  - do 4 right. left. reflexivity.
  - vm_compute. left. reflexivity.
Defined.

(** The citation of a row is either the placeholder of the year, when the
    pattern is found nowhere in the metadata text, or a piece of the metadata
    text of the form [[YYYY] NZSC N]. *)
Theorem find_citation_cases (year : nat) (meta : text) :
  (search citation_re meta = None
   /\ find_citation year meta = str "UNKNOWN_CITATION_" ++ str_of_nat year)
  \/ (exists before y n after,
        meta = before ++ find_citation year meta ++ after
        /\ find_citation year meta = "["%char :: y ++ str "] NZSC " ++ n
        /\ length y = 4 /\ Forall (fun d => isdigit d = true) y
        /\ n <> [] /\ Forall (fun d => isdigit d = true) n).
Proof.
  unfold find_citation. destruct (search citation_re meta) as [c|] eqn:E.
  - right. apply ReFacts.search_sound in E. destruct E as (before & after & -> & HL).
    apply CitationFacts.citation_shape in HL.
    destruct HL as (y & n & -> & H1 & H2 & H3 & H4).
    exists before, y, n, after. repeat split; auto.
  - left. split; reflexivity.
Qed.
